(** * Logi-Flow team balancer: the cohort solver of [app.py]

    A shallow embedding of [solve_cohort_v2], of the scoring and ghost
    injection steps of [clean_and_score_data] and of the cohort loop of
    [app.py], with the properties of the balanced partition engine.

    The rows of a pandas frame are Python dicts ([to_dict('records')]):
    they are finite maps from column names to cells.  The CP-SAT solver
    of OR-tools is outside the repository: it is a parameter, a function
    from the model that the code builds to a status and a valuation of
    the model's variables. *)

From Stdlib Require Import ZArith Lia List Permutation Ascii String.
From stdpp Require Import gmap strings list fin_maps sorting pretty.

Import ListNotations.

(** ** Cells, rows and frames *)

(** A cell of a frame, as [to_dict('records')] hands it to Python. *)
Inductive value :=
  | VStr (s : string)
  | VInt (z : Z)
  | VBool (b : bool)
  | VNaN
  | VDate (year month day : Z).

#[global] Instance value_eq_dec : EqDecision value.
Proof. solve_decision. Defined.

#[global] Instance value_inhabited : Inhabited value := populate VNaN.

(** Python's [==] on cells: NaN is equal to nothing, itself included;
    [True == 1] and [False == 0]. *)
Definition py_eq (v w : value) : bool :=
  match v, w with
  | VNaN, _ | _, VNaN => false
  | VBool b, VInt z | VInt z, VBool b => (Z.b2z b =? z)%Z
  | _, _ => bool_decide (v = w)
  end.

(** Membership test of a Python [set]: identity first, then [==].  The
    NaN cells count as one object; with several NaN objects the set would
    only repeat, for each of them, the constraints of an empty list of
    indices. *)
Definition py_same (v w : value) : bool :=
  bool_decide (v = w) || py_eq v w.

(** [set(...)] of a sequence of cells, in order of first occurrence (the
    iteration order of a Python set is not specified; nothing below
    depends on it). *)
Fixpoint py_set (l : list value) : list value :=
  match l with
  | [] => []
  | v :: l' => v :: List.filter (fun w => negb (py_same v w)) (py_set l')
  end.

Abbreviation record := (gmap string value).

(** Python exceptions that the modelled code can raise. *)
Inductive exn :=
  | KeyError (key : string)
  | TypeError
  | ValueError.

Inductive result (A : Type) :=
  | Ok (a : A)
  | Raise (e : exn).

Arguments Ok {A} a.
Arguments Raise {A} e.

Definition bind {A B} (r : result A) (k : A -> result B) : result B :=
  match r with
  | Ok a => k a
  | Raise e => Raise e
  end.

Notation "'try' x <- r ;; k" := (bind r (fun x => k))
  (at level 10, x name, r at level 99, k at level 200).

Fixpoint mapM_result {A B} (f : A -> result B) (l : list A) : result (list B) :=
  match l with
  | [] => Ok []
  | a :: l' => try b <- f a ;; try bs <- mapM_result f l' ;; Ok (b :: bs)
  end.

(** [row[key]] *)
Definition getitem (key : string) (row : record) : result value :=
  match row !! key with
  | Some v => Ok v
  | None => Raise (KeyError key)
  end.

(** [row['skill_score'] * x[p, t]] (line 154): the cell is read and
    multiplied by a variable.  Any number makes a term of an expression;
    a string or a date cannot be multiplied by a variable. *)
Definition skill_term (row : record) : result value :=
  try v <- getitem "skill_score" row ;;
  match v with
  | VStr _ | VDate _ _ _ => Raise TypeError
  | _ => Ok v
  end.

(** The coefficients of an integer expression of OR-tools are 64-bit
    integers. *)
Definition int64 (z : Z) : bool :=
  (- 2 ^ 63 <=? z)%Z && (z <? 2 ^ 63)%Z.

(** The coefficient that a [skill_score] cell gives in the expression of
    line 156: an int that fits in 64 bits, and a bool as 0 or 1.  NaN
    and an int that does not fit in 64 bits make a floating-point term,
    which [AddAbsEquality] refuses with a ValueError. *)
Definition skill_score (row : record) : result Z :=
  try v <- getitem "skill_score" row ;;
  match v with
  | VInt z => if int64 z then Ok z else Raise ValueError
  | VBool b => Ok (Z.b2z b)
  | VNaN => Raise ValueError
  | VStr _ | VDate _ _ _ => Raise TypeError
  end.

(** ** The CP-SAT model *)

(** The variables of the model: [x[p, t]] and [diff]. *)
Inductive IntVar :=
  | x_var (p t : nat)
  | diff_var.

#[global] Instance IntVar_eq_dec : EqDecision IntVar.
Proof. solve_decision. Defined.

Inductive LinearExpr :=
  | Const (c : Z)
  | Var (v : IntVar)
  | Scale (c : Z) (e : LinearExpr)
  | Plus (a b : LinearExpr)
  | Minus (a b : LinearExpr).

(** Python's [sum] of a sequence of expressions: [((0 + e1) + e2) + ...]. *)
Definition sum_expr (l : list LinearExpr) : LinearExpr :=
  fold_left Plus l (Const 0).

Inductive Constraint :=
  | LinEq (e : LinearExpr) (c : Z)
  | LinGe (e : LinearExpr) (c : Z)
  | LinLe (e : LinearExpr) (c : Z)
  | AbsEquality (target : IntVar) (e : LinearExpr).

Record CpModel := {
  variables : list (IntVar * (Z * Z));
  constraints : list Constraint;
  objective : option LinearExpr
}.

Definition empty_model : CpModel :=
  {| variables := []; constraints := []; objective := None |}.

Definition NewIntVar (lb ub : Z) (v : IntVar) (m : CpModel) : CpModel :=
  {| variables := variables m ++ [(v, (lb, ub))];
     constraints := constraints m;
     objective := objective m |}.

Definition NewBoolVar (v : IntVar) (m : CpModel) : CpModel :=
  NewIntVar 0 1 v m.

Definition Add (c : Constraint) (m : CpModel) : CpModel :=
  {| variables := variables m;
     constraints := constraints m ++ [c];
     objective := objective m |}.

Definition AddAbsEquality (target : IntVar) (e : LinearExpr) (m : CpModel) : CpModel :=
  Add (AbsEquality target e) m.

Definition Minimize (e : LinearExpr) (m : CpModel) : CpModel :=
  {| variables := variables m;
     constraints := constraints m;
     objective := Some e |}.

(** A [for] loop over a list that updates a state. *)
Definition for_each {S A} (l : list A) (body : A -> S -> S) (s : S) : S :=
  fold_left (fun s a => body a s) l s.

(** Semantics of the model under a valuation of its variables. *)
Fixpoint eval (V : IntVar -> Z) (e : LinearExpr) : Z :=
  match e with
  | Const c => c
  | Var v => V v
  | Scale c e => c * eval V e
  | Plus a b => eval V a + eval V b
  | Minus a b => eval V a - eval V b
  end%Z.

Definition holds (V : IntVar -> Z) (c : Constraint) : bool :=
  match c with
  | LinEq e k => (eval V e =? k)%Z
  | LinGe e k => (k <=? eval V e)%Z
  | LinLe e k => (eval V e <=? k)%Z
  | AbsEquality t e => (V t =? Z.abs (eval V e))%Z
  end.

Definition in_domain (V : IntVar -> Z) (d : IntVar * (Z * Z)) : bool :=
  let '(v, (lb, ub)) := d in (lb <=? V v)%Z && (V v <=? ub)%Z.

(** The valuation respects every declared domain and every constraint. *)
Definition check_model (m : CpModel) (V : IntVar -> Z) : bool :=
  forallb (in_domain V) (variables m) && forallb (holds V) (constraints m).

Inductive CpSolverStatus :=
  | UNKNOWN
  | MODEL_INVALID
  | FEASIBLE
  | INFEASIBLE
  | OPTIMAL.

#[global] Instance CpSolverStatus_eq_dec : EqDecision CpSolverStatus.
Proof. solve_decision. Defined.

(** ** [solve_cohort_v2] *)

Definition num_teams : nat := 2.

(** [math.ceil(count / num_teams)]: the quotient is a float, exact for
    every count below 2^53, and its ceiling is the integer ceiling. *)
Definition math_ceil_div (count k : nat) : Z :=
  (- ((- Z.of_nat count) / Z.of_nat k))%Z.

(** [[i for i, p in enumerate(players) if p['position'] == pos]] over the
    column of positions. *)
Definition pos_indices_of (positions : list value) (pos : value) : list nat :=
  List.filter (fun i => py_eq (positions !!! i) pos) (seq 0 (length positions)).

(** Lines 122-157: variables, constraints and objective. *)
Definition build_model (players : list record) : result CpModel :=
  let num_players := length players in
  let all_players := seq 0 num_players in
  let all_teams := seq 0 num_teams in
  let model := empty_model in
  (* Variables *)
  let model :=
    for_each all_players (fun p =>
      for_each all_teams (fun t => NewBoolVar (x_var p t))) model in
  (* 1. One Team per Player *)
  let model :=
    for_each all_players (fun p =>
      Add (LinEq (sum_expr (map (fun t => Var (x_var p t)) all_teams)) 1)) model in
  (* 2. Equal Size *)
  let target := Z.of_nat (num_players / num_teams) in
  let model :=
    for_each all_teams (fun t m =>
      let m := Add (LinGe (sum_expr (map (fun p => Var (x_var p t)) all_players)) target) m in
      Add (LinLe (sum_expr (map (fun p => Var (x_var p t)) all_players)) (target + 1)) m)
      model in
  (* 3. Position Loop *)
  try positions <- mapM_result (getitem "position") players ;;
  let unique_positions := py_set positions in
  let model :=
    for_each unique_positions (fun pos =>
      let pos_indices := pos_indices_of positions pos in
      let count := length pos_indices in
      let min_per_team := Z.of_nat (count / num_teams) in
      for_each all_teams (fun t m =>
        let m := Add (LinGe (sum_expr (map (fun p => Var (x_var p t)) pos_indices)) min_per_team) m in
        Add (LinLe (sum_expr (map (fun p => Var (x_var p t)) pos_indices))
                   (math_ceil_div count num_teams)) m))
      model in
  (* Objective: Minimize Skill Diff.  Line 154 reads the cell of every
     player and builds the terms of the two scores; line 156 then takes
     their difference as an integer expression. *)
  try terms <- mapM_result skill_term players ;;
  try skills <- mapM_result skill_score players ;;
  let t_scores :=
    map (fun t => sum_expr (map (fun p => Scale (skills !!! p) (Var (x_var p t))) all_players))
        all_teams in
  let model := NewIntVar 0 100000 diff_var model in
  let model :=
    AddAbsEquality diff_var
      (Minus (nth 0 t_scores (Const 0)) (nth 1 t_scores (Const 0))) model in
  Ok (Minimize (Var diff_var) model).

(** [f"{cohort_name}_Team_{t+1}"] *)
Definition team_label (cohort_name : string) (t : nat) : string :=
  cohort_name +:+ "_Team_" +:+ pretty (t + 1)%nat.

(** [rosters[t].append(...)] on a dict kept as an association list in
    insertion order (the order in which [for t_id in result] reads it).
    The keys are the teams, so the key is always there. *)
Fixpoint alist_alter {V} (f : V -> V) (k : nat) (l : list (nat * V)) : list (nat * V) :=
  match l with
  | [] => []
  | (k', v) :: l' =>
      if decide (k = k') then (k', f v) :: l' else (k', v) :: alist_alter f k l'
  end.

(** Lines 164-171.  [player_data = players[p]] is a reference to the dict
    in [players]: setting ['Assigned_Team'] updates the dict in place and
    a roster holds references, here indices into [players]. *)
Definition extract (cohort_name : string) (Value : IntVar -> Z)
    (players : list record) : list record * list (nat * list nat) :=
  let all_players := seq 0 (length players) in
  let all_teams := seq 0 num_teams in
  let rosters : list (nat * list nat) := [(0, []); (1, [])]%nat in
  for_each all_players (fun p =>
    for_each all_teams (fun t (s : list record * list (nat * list nat)) =>
      if (Value (x_var p t) =? 1)%Z then
        (alter (insert "Assigned_Team" (VStr (team_label cohort_name t))) p s.1,
         alist_alter (fun r => r ++ [p]) t s.2)
      else s))
    (players, rosters).

(** The rosters as the caller reads them: each reference replaced by the
    dict it points to. *)
Definition deref (players : list record) (rosters : list (nat * list nat))
    : list (nat * list record) :=
  map (fun kv => (kv.1, map (fun p => players !!! p) kv.2)) rosters.

(** ** Frames and cohorts *)

(** A cell of a column; a row of a frame has every column of the frame. *)
Definition cell (key : string) (row : record) : value :=
  default VNaN (row !! key).

(** The [category] column holds the strings of [assign_cohort]. *)
Definition category_of (row : record) : result string :=
  match cell "category" row with
  | VStr c => Ok c
  | _ => Raise TypeError
  end.

(** [df[df['category'] == cohort]] *)
Definition cohort_rows (cohort : string) (df : list record) : list record :=
  List.filter (fun row => py_eq (cell "category" row) (VStr cohort)) df.

(** [sorted(df['category'].unique())] *)
Definition cohorts_of (categories : list string) : list string :=
  merge_sort String.le (remove_dups categories).

(** What the loop shows for a cohort: the flattened rosters and the
    skill difference, or the message that there is no feasible
    solution. *)
Definition report : Type := string * option (list record * Z).

Fixpoint for_each_result {S A} (l : list A) (body : A -> S -> result S) (s : S)
    : result S :=
  match l with
  | [] => Ok s
  | a :: l' => try s' <- body a s ;; for_each_result l' body s'
  end.

Section Solver.

(** [cp_model.CpSolver().Solve(model)] followed by [solver.Value]. *)
Variable Solve : CpModel -> CpSolverStatus * (IntVar -> Z).

(** [solve_cohort_v2(cohort_name, df_cohort)], from
    [players = df_cohort.to_dict('records')] on.  [Ok None] is the
    return value [(None, None)]. *)
Definition solve_cohort_v2 (cohort_name : string) (players : list record)
    : result (option (list (nat * list record) * Z)) :=
  try model <- build_model players ;;
  let '(status, Value) := Solve model in
  if bool_decide (status = OPTIMAL) || bool_decide (status = FEASIBLE) then
    let '(players', rosters) := extract cohort_name Value players in
    Ok (Some (deref players' rosters, Value diff_var))
  else
    Ok None.

(** ** The cohort loop *)

(** The body of [for i, cohort in enumerate(cohorts)], on the state
    made of the reports shown so far and [final_roster]. *)
Definition cohort_step (df : list record) (cohort : string)
    (s : list report * list record) : result (list report * list record) :=
  let cohort_data := cohort_rows cohort df in
  try r <- solve_cohort_v2 cohort cohort_data ;;
  match r with
  | Some (result, skill_diff) =>
      if bool_decide (result = []) then
        Ok (s.1 ++ [(cohort, None)], s.2)
      else
        let cohort_final := flat_map snd result in
        Ok (s.1 ++ [(cohort, Some (cohort_final, skill_diff))], s.2 ++ cohort_final)
  | None => Ok (s.1 ++ [(cohort, None)], s.2)
  end.

(** Lines 190-238: the reports of the cohorts, in order, and
    [final_roster].  The calls that only draw the page ([st.tabs],
    [st.write], the two charts and [st.dataframe]) are left out. *)
Definition cohort_loop (df : list record) : result (list report * list record) :=
  try categories <- mapM_result category_of df ;;
  let cohorts := cohorts_of categories in
  for_each_result cohorts (cohort_step df) ([], []).

End Solver.

(** ** Scoring and ghost injection in [clean_and_score_data] *)

Definition lower_ascii (c : ascii) : ascii :=
  let n := nat_of_ascii c in
  if (65 <=? n)%nat && (n <=? 90)%nat then ascii_of_nat (n + 32) else c.

(** [str.lower()], on ASCII text. *)
Fixpoint lower (s : string) : string :=
  match s with
  | EmptyString => EmptyString
  | String c s' => String (lower_ascii c) (lower s')
  end.

(** [sub in text] *)
Definition contains (sub text : string) : bool :=
  match String.index 0 sub text with
  | Some _ => true
  | None => false
  end.

(** [calculate_skill(row)] on the two cells that it reads, for a whole
    number of years of experience (the column is cast with
    [.astype(int)]). *)
Definition calculate_skill (years_exp : Z) (history_text : string) : Z :=
  let score := (years_exp * 2)%Z in
  let text := lower history_text in
  if contains "premier" text || contains "academy" text || contains "club" text
  then (score + 50)%Z
  else if contains "varsity" text || contains "high school" text
  then (score + 30)%Z
  else if contains "ayso" text || contains "aysa" text
  then (score + 20)%Z
  else if contains "jv" text || contains "rec" text
  then (score + 10)%Z
  else (score + 15)%Z.

(** [assign_cohort(year)] *)
Definition assign_cohort (year : Z) : string :=
  if (year <=? 2007)%Z then "Group_2007_Earlier"
  else if (2008 <=? year)%Z && (year <=? 2009)%Z then "Group_2008_2009"
  else "Group_2010_Plus".

Definition ghost : record :=
  {[ "name" := VStr "GHOST_GK_PLACEHOLDER";
     "dob" := VDate 2010 1 1;
     "birth_year" := VInt 2010;
     "position" := VStr "GK";
     "position_2" := VStr "None";
     "years_exp" := VInt 3;
     "history_text" := VStr "Generated";
     "skill_score" := VInt 50;
     "category" := VStr "Group_2010_Plus";
     "age" := VInt 14 ]}.

(** The columns of a frame given by its rows. *)
Definition columns (df : list record) : gset string :=
  ⋃ (dom <$> df).

(** A row laid out on the columns [cols]: NaN where it has no cell. *)
Definition reindex (cols : gset string) (row : record) : record :=
  row ∪ gset_to_gmap VNaN cols.

(** [pd.concat(frames, ignore_index=True)]: the rows in order, on the
    union of the columns. *)
Definition pd_concat (frames : list (list record)) : list record :=
  let rows := mjoin frames in
  reindex (columns rows) <$> rows.

(** Lines 96-112 of [clean_and_score_data], on the scored frame; the
    [st.warning] notice is left out. *)
Definition ghost_injection (df : list record) : list record :=
  let gks_2010 :=
    List.filter (fun row =>
      py_eq (cell "category" row) (VStr "Group_2010_Plus")
      && py_eq (cell "position" row) (VStr "GK")) df in
  if (length gks_2010 =? 1)%nat then pd_concat [df; [ghost]] else df.

(** ** A reference solver

    An exhaustive search over the 0/1 variables of a model: every other
    variable takes its lower bound, then the value that the absolute-value
    constraints give it.  It stands for CP-SAT where a concrete solver is
    needed to run the code. *)

Definition assign (v : IntVar) (z : Z) (V : IntVar -> Z) : IntVar -> Z :=
  fun w => if decide (w = v) then z else V w.

Fixpoint candidates (vars : list (IntVar * (Z * Z))) : list (IntVar -> Z) :=
  match vars with
  | [] => [fun _ => 0%Z]
  | (v, (lb, ub)) :: vars' =>
      let rest := candidates vars' in
      if ((lb =? 0) && (ub =? 1))%Z
      then map (assign v 0%Z) rest ++ map (assign v 1%Z) rest
      else map (assign v lb) rest
  end.

Definition settle_abs (cs : list Constraint) (V : IntVar -> Z) : IntVar -> Z :=
  fold_left (fun V c =>
    match c with
    | AbsEquality t e => assign t (Z.abs (eval V e)) V
    | _ => V
    end) cs V.

Definition objective_value (m : CpModel) (V : IntVar -> Z) : Z :=
  match objective m with
  | Some e => eval V e
  | None => 0%Z
  end.

Definition exhaustive_solve (m : CpModel) : CpSolverStatus * (IntVar -> Z) :=
  let feasible :=
    List.filter (check_model m)
      (map (settle_abs (constraints m)) (candidates (variables m))) in
  match feasible with
  | [] => (INFEASIBLE, fun _ => 0%Z)
  | V :: rest =>
      (OPTIMAL,
       fold_left (fun best V' =>
         if (objective_value m V' <? objective_value m best)%Z then V' else best)
         rest V)
  end.

(** A row with the columns that the solver reads. *)
Definition player (name position : string) (skill : Z) (category : string) : record :=
  {[ "name" := VStr name; "position" := VStr position;
     "skill_score" := VInt skill; "category" := VStr category ]}.

(** Sums of integers, and the players that a valuation puts in team [t]. *)
Definition Zsum (l : list Z) : Z := fold_right Z.add 0%Z l.

Definition picks (V : IntVar -> Z) (t p : nat) : bool :=
  (V (x_var p t) =? 1)%Z.

(** ** Notions used in the statements *)

(** The expressions and the families of constraints of the model. *)
Definition team_size (idx : list nat) (t : nat) : LinearExpr :=
  sum_expr (map (fun p => Var (x_var p t)) idx).

Definition team_score (n : nat) (skills : list Z) (t : nat) : LinearExpr :=
  sum_expr (map (fun p => Scale (skills !!! p) (Var (x_var p t))) (seq 0 n)).

Definition one_team_constraint (p : nat) : list Constraint :=
  [LinEq (sum_expr (map (fun t => Var (x_var p t)) (seq 0 num_teams))) 1].

Definition size_constraints (n t : nat) : list Constraint :=
  [LinGe (team_size (seq 0 n) t) (Z.of_nat (n / num_teams));
   LinLe (team_size (seq 0 n) t) (Z.of_nat (n / num_teams) + 1)].

Definition position_constraints (positions : list value) (pos : value) : list Constraint :=
  flat_map (fun t =>
    [LinGe (team_size (pos_indices_of positions pos) t)
       (Z.of_nat (length (pos_indices_of positions pos) / num_teams));
     LinLe (team_size (pos_indices_of positions pos) t)
       (math_ceil_div (length (pos_indices_of positions pos)) num_teams)])
    (seq 0 num_teams).

Record satisfying (n : nat) (positions : list value) (skills : list Z)
    (V : IntVar -> Z) : Prop := {
  sat_bool : forall p t, (p < n)%nat -> (t < num_teams)%nat ->
    V (x_var p t) = 0%Z \/ V (x_var p t) = 1%Z;
  sat_one_team : forall p, (p < n)%nat ->
    (V (x_var p 0) + V (x_var p 1) = 1)%Z;
  sat_size : forall t, (t < num_teams)%nat ->
    (Z.of_nat (n / num_teams) <= eval V (team_size (seq 0 n) t)
     <= Z.of_nat (n / num_teams) + 1)%Z;
  sat_position : forall pos t, In pos (py_set positions) -> (t < num_teams)%nat ->
    (Z.of_nat (length (pos_indices_of positions pos) / num_teams)
     <= eval V (team_size (pos_indices_of positions pos) t)
     <= math_ceil_div (length (pos_indices_of positions pos)) num_teams)%Z;
  sat_diff_domain : (0 <= V diff_var <= 100000)%Z;
  sat_diff : V diff_var
    = Z.abs (eval V (team_score n skills 0) - eval V (team_score n skills 1))
}.

(** The dict of player [p] once the inner loop over the teams is done. *)
Definition labelled (cohort_name : string) (V : IntVar -> Z) (p : nat) (r : record) : record :=
  for_each (seq 0 num_teams) (fun t r =>
    if picks V t p then <["Assigned_Team" := VStr (team_label cohort_name t)]> r else r) r.

Definition relabel (cohort_name : string) (V : IntVar -> Z) (players : list record)
    (idx : list nat) : list record :=
  fold_left (fun pl p => alter (labelled cohort_name V p) p pl) idx players.

(** The contract of the solver: with status OPTIMAL or FEASIBLE, the
    values that [solver.Value] reads satisfy the model. *)
Definition solver_sound (Solve : CpModel -> CpSolverStatus * (IntVar -> Z)) : Prop :=
  forall m, (Solve m).1 = OPTIMAL \/ (Solve m).1 = FEASIBLE ->
            check_model m (Solve m).2 = true.

(** The other half of the contract, on the model of a cohort: line 160
    sets no limit on the search, which then ends with an answer; when
    the model has a solution, the status is OPTIMAL or FEASIBLE. *)
Definition solver_complete_on (Solve : CpModel -> CpSolverStatus * (IntVar -> Z))
    (players : list record) : Prop :=
  forall m V, build_model players = Ok m -> check_model m V = true ->
    (Solve m).1 = OPTIMAL \/ (Solve m).1 = FEASIBLE.

(** The roster of team [t] under a valuation: the picked players in
    order, each with its team label. *)
Definition roster_of (cohort_name : string) (V : IntVar -> Z) (players : list record)
    (t : nat) : list record :=
  map (fun p => <["Assigned_Team" := VStr (team_label cohort_name t)]> (players !!! p))
      (List.filter (picks V t) (seq 0 (length players))).

(** The number of rows of a list whose position is [pos], for Python's [==]. *)
Definition count_position (pos : value) (l : list record) : nat :=
  length (List.filter (fun r => py_eq (cell "position" r) pos) l).

(** [sum(p['skill_score'] for p in team)], recomputed from a roster. *)
Definition total_skill (team : list record) : result Z :=
  try scores <- mapM_result skill_score team ;; Ok (Zsum scores).

(** A solver that reports [status] for every model. *)
Definition reporting (status : CpSolverStatus) : CpModel -> CpSolverStatus * (IntVar -> Z) :=
  fun _ => (status, fun _ => 0%Z).

(** The number of goalkeepers of a cohort in a frame. *)
Definition gk_count (cohort : string) (df : list record) : nat :=
  length (List.filter (fun row =>
    py_eq (cell "category" row) (VStr cohort) && py_eq (cell "position" row) (VStr "GK")) df).

(** The frame without the rows of a cohort. *)
Definition without_cohort (cohort : string) (df : list record) : list record :=
  List.filter (fun row => negb (py_eq (cell "category" row) (VStr cohort))) df.

(** What a step of the loop reports for a cohort. *)
Definition cohort_outcome (Solve : CpModel -> CpSolverStatus * (IntVar -> Z))
    (df : list record) (cohort : string) : result (option (list record * Z)) :=
  try r <- solve_cohort_v2 Solve cohort (cohort_rows cohort df) ;;
  Ok (match r with
      | Some (result, skill_diff) =>
          if bool_decide (result = []) then None
          else Some (flat_map snd result, skill_diff)
      | None => None
      end).

Definition outcome_rows (o : option (list record * Z)) : list record :=
  match o with
  | Some (cohort_final, _) => cohort_final
  | None => []
  end.

(** The player of a cohort of one in the first team. *)
Definition single_split (skill : Z) : IntVar -> Z :=
  fun v =>
    match v with
    | x_var 0 0 => 1
    | x_var _ _ => 0
    | diff_var => Z.abs skill
    end%Z.

(** ** Sample frames and cohorts *)

Definition demo_cohort : list record :=
  [player "a" "GK" 30 "G"; player "b" "GK" 20 "G"; player "c" "DEF" 25 "G"].

Definition demo_rosters : list (nat * list record) :=
  [(0%nat, [<["Assigned_Team" := VStr "G_Team_1"]> (player "b" "GK" 20 "G");
            <["Assigned_Team" := VStr "G_Team_1"]> (player "c" "DEF" 25 "G")]);
   (1%nat, [<["Assigned_Team" := VStr "G_Team_2"]> (player "a" "GK" 30 "G")])].

Definition demo_model : CpModel :=
  match build_model demo_cohort with
  | Ok m => m
  | Raise _ => empty_model
  end.

(** Two goalkeepers, one with 50000 years of experience entered in the
    sheet. *)
Definition big_cohort : list record :=
  [player "a" "GK" (calculate_skill 50000 "U17 Premier") "G";
   player "b" "GK" (calculate_skill 0 "rec league") "G"].

Definition big_model : CpModel :=
  match build_model big_cohort with
  | Ok m => m
  | Raise _ => empty_model
  end.

(** Player a in the first team, player b in the second. *)
Definition big_split : IntVar -> Z :=
  fun v =>
    match v with
    | x_var 0 0 => 1
    | x_var 1 1 => 1
    | x_var _ _ => 0
    | diff_var => 100040
    end%Z.

(** A cohort of one defender, and a cohort of one defender with 50000
    years of experience entered in the sheet. *)
Definition lone_cohort : list record :=
  [player "a" "DEF" 7 "G"].

Definition big_lone_cohort : list record :=
  [player "a" "DEF" (calculate_skill 50000 "U17 Premier") "G"].

Definition big_lone_model : CpModel :=
  match build_model big_lone_cohort with
  | Ok m => m
  | Raise _ => empty_model
  end.

(** A frame with one goalkeeper among the players born in 2010, and one
    with one goalkeeper among the players born in 2008. *)
Definition df_2010 : list record :=
  [player "k" "GK" 20 (assign_cohort 2010); player "d" "DEF" 25 (assign_cohort 2010)].

Definition df_2008 : list record :=
  [player "k" "GK" 20 (assign_cohort 2008); player "d" "DEF" 25 (assign_cohort 2008)].

Definition ghost_rosters : list (nat * list record) :=
  match solve_cohort_v2 exhaustive_solve "Group_2010_Plus"
          (cohort_rows "Group_2010_Plus" (ghost_injection df_2010)) with
  | Ok (Some (rosters, _)) => rosters
  | _ => []
  end.

(** Two cohorts; the one of 2010 has a single goalkeeper. *)
Definition df_two_cohorts : list record :=
  [player "a" "GK" 30 (assign_cohort 2010);
   player "b" "DEF" 20 (assign_cohort 2011);
   player "c" "DEF" 25 (assign_cohort 2008)].

(** A frame of two cohorts: the differential of the first one is outside
    the domain of the objective variable, the second one has a solution. *)
Definition df_mixed : list record :=
  [player "a" "GK" (calculate_skill 50000 "U17 Premier") (assign_cohort 2008);
   player "b" "GK" (calculate_skill 0 "rec league") (assign_cohort 2009);
   player "c" "DEF" 25 (assign_cohort 2010);
   player "d" "DEF" 20 (assign_cohort 2011)].

Definition mixed_final_roster : list record :=
  [<["Assigned_Team" := VStr "Group_2010_Plus_Team_1"]>
     (player "d" "DEF" 20 "Group_2010_Plus");
   <["Assigned_Team" := VStr "Group_2010_Plus_Team_2"]>
     (player "c" "DEF" 25 "Group_2010_Plus")].

Definition mixed_reports : list report :=
  [("Group_2008_2009", None);
   ("Group_2010_Plus", Some (mixed_final_roster, 5%Z))].

(** ** The other steps of [clean_and_score_data] *)

Definition upper_ascii (c : ascii) : ascii :=
  let n := nat_of_ascii c in
  if (97 <=? n)%nat && (n <=? 122)%nat then ascii_of_nat (n - 32) else c.

(** [str.upper()], on ASCII text. *)
Fixpoint upper (s : string) : string :=
  match s with
  | EmptyString => EmptyString
  | String c s' => String (upper_ascii c) (upper s')
  end.

(** [str.isascii()]: the texts on which [lower] and [upper] are the two
    methods of Python. *)
Definition isascii (s : string) : bool :=
  forallb (fun c => (nat_of_ascii c <? 128)%nat) (list_ascii_of_string s).

(** [d.get(k)] on a dict literal kept as the list of its items. *)
Definition dict_get (d : list (string * string)) (k : string) : option string :=
  match List.find (fun kv => bool_decide (kv.1 = k)) d with
  | Some kv => Some kv.2
  | None => None
  end.

Definition column_mapping : list (string * string) :=
  [("Full Name", "name");
   ("Date of Birth", "dob");
   ("Primary Playing Position", "position");
   ("Secondary Playing Position (Optional)", "position_2");
   ("Years of Competitive Soccer Experience", "years_exp");
   ("Please list your previous two competitive teams and the highest level you played (e.g., U17 Premier, High School Varsity)",
    "history_text")].

(** Lines 31-41 on the header [df.columns]: the renaming, the lower
    case and the two [drop] calls. *)
Definition clean_columns (columns : list string) : list string :=
  let renaming :=
    List.filter (fun kv => bool_decide (kv.1 ∈ columns)) column_mapping in
  let columns := map (fun c => default c (dict_get renaming c)) columns in
  let columns := map lower columns in
  let cols_to_drop :=
    List.filter (fun c => contains "column" c || contains "unnamed" c) columns in
  let columns := List.filter (fun c => negb (bool_decide (c ∈ cols_to_drop))) columns in
  let cols_to_drop := ["timestamp"; "contact email"; "phone number"; "cleaned email"] in
  let dropped := List.filter (fun c => bool_decide (c ∈ columns)) cols_to_drop in
  List.filter (fun c => negb (bool_decide (c ∈ dropped))) columns.

Definition position_cleanup : list (string * string) :=
  [("Goalkeeper (GK)", "GK"); ("GK", "GK");
   ("Defender (Left Back/Right Back)", "DEF"); ("Center Back (CB)", "DEF");
   ("Midfielder (Defensive Mid/Center Mid)", "MID");
   ("Winger (Left Wing/Right Wing)", "MID");
   ("Forward (Striker/Center Forward)", "FWD")].

(** Line 54 on a cell: [.map(position_cleanup)] gives NaN where the cell
    is no key of the dict, and [.fillna(df['position'])] puts the cell
    back there. *)
Definition map_fillna (v : value) : value :=
  match v with
  | VStr s =>
      match dict_get position_cleanup s with
      | Some category => VStr category
      | None => v
      end
  | _ => v
  end.

(** Lines 56-57 on a cell: one assignment for each item of the dict, in
    order. *)
Definition replace_loop (v : value) : value :=
  fold_left (fun v kv => if py_eq v (VStr kv.1) then VStr kv.2 else v)
            position_cleanup v.

(** Line 58 on a cell of a column of Python objects: [.str.upper()]
    gives NaN for a cell that is no string. *)
Definition str_upper (v : value) : value :=
  match v with
  | VStr s => VStr (upper s)
  | _ => VNaN
  end.

(** Lines 54-58 on a cell of the [position] column. *)
Definition normalize_position (v : value) : value :=
  str_upper (replace_loop (map_fillna v)).

Record datetime := {
  year : Z;
  month : Z;
  day : Z
}.

(** [(a1, a2) < (b1, b2)] on tuples of integers. *)
Definition tuple_lt (a b : Z * Z) : bool :=
  (a.1 <? b.1)%Z || ((a.1 =? b.1)%Z && (a.2 <? b.2)%Z).

(** [calculate_age(dob)] for a [dob] that is a [datetime], with the
    value of [datetime.now()] as [today]. *)
Definition calculate_age (today birth_date : datetime) : Z :=
  (year today - year birth_date
   - Z.b2z (tuple_lt (month today, day today) (month birth_date, day birth_date)))%Z.

(** The order of dates, and a birth date moved by a number of years. *)
Definition date_le (a b : datetime) : Prop :=
  (year a < year b)%Z \/
  (year a = year b /\ (month a < month b)%Z) \/
  (year a = year b /\ month a = month b /\ (day a <= day b)%Z).

Definition add_years (k : Z) (d : datetime) : datetime :=
  {| year := year d + k; month := month d; day := day d |}.

(** ** Further sample frames *)

(** The rosters of [df_2010] once the placeholder is injected. *)
Definition ghost_frame_columns : gset string := columns (df_2010 ++ [ghost]).

Definition ghost_team_0 : list record :=
  [<["Assigned_Team" := VStr "Group_2010_Plus_Team_1"]> (reindex ghost_frame_columns ghost)].

Definition ghost_team_1 : list record :=
  [<["Assigned_Team" := VStr "Group_2010_Plus_Team_2"]>
     (reindex ghost_frame_columns (player "k" "GK" 20 "Group_2010_Plus"));
   <["Assigned_Team" := VStr "Group_2010_Plus_Team_2"]>
     (reindex ghost_frame_columns (player "d" "DEF" 25 "Group_2010_Plus"))].

(** ** A balanced split of any cohort *)

(** The place of [p] in a list. *)
Fixpoint index_of (p : nat) (l : list nat) : nat :=
  match l with
  | [] => 0
  | q :: l' => if (p =? q)%nat then 0 else S (index_of p l')
  end.

(** The players position after position, as the model groups them, then
    the players that are in no group (their position is NaN). *)
Definition balanced_order (positions : list value) : list nat :=
  let grouped := flat_map (pos_indices_of positions) (py_set positions) in
  grouped
  ++ List.filter (fun i => negb (bool_decide (i ∈ grouped))) (seq 0 (length positions)).

(** The players of [balanced_order] put in the two teams in turn. *)
Definition in_team_0 (positions : list value) (p : nat) : bool :=
  Nat.even (index_of p (balanced_order positions)).

Definition balanced_teams (positions : list value) : IntVar -> Z :=
  fun v =>
    match v with
    | x_var p 0 => if in_team_0 positions p then 1 else 0
    | x_var p 1 => if in_team_0 positions p then 0 else 1
    | x_var _ _ => 0
    | diff_var => 0
    end%Z.

Definition balanced_split (positions : list value) (skills : list Z) : IntVar -> Z :=
  fun v =>
    match v with
    | diff_var =>
        Z.abs (eval (balanced_teams positions) (team_score (length positions) skills 0)
               - eval (balanced_teams positions) (team_score (length positions) skills 1))
    | _ => balanced_teams positions v
    end.

(** ** Tactics *)

Ltac reflect_in H :=
  rewrite ?andb_true_iff, ?Z.leb_le, ?Z.eqb_eq in H;
  repeat match type of H with
         | _ /\ true = true => destruct H as [H _]
         end.

(** * Properties *)

(** ** Linear expressions *)

Lemma eval_fold_left_Plus V l acc :
  eval V (fold_left Plus l acc) = (eval V acc + Zsum (map (eval V) l))%Z.
Proof.
  revert acc. induction l as [|e l IH]; intros acc; simpl.
  - lia.
  - rewrite IH. simpl. lia.
Qed.

Lemma eval_sum_expr V l : eval V (sum_expr l) = Zsum (map (eval V) l).
Proof. unfold sum_expr. rewrite eval_fold_left_Plus. simpl. lia. Qed.

(** A weighted sum over 0/1 variables is the sum of the weights of the
    players that are picked. *)
Lemma Zsum_picks (w : nat -> Z) V t (l : list nat) :
  (forall p, In p l -> V (x_var p t) = 0%Z \/ V (x_var p t) = 1%Z) ->
  Zsum (map (fun p => (w p * V (x_var p t))%Z) l)
  = Zsum (map w (List.filter (picks V t) l)).
Proof.
  induction l as [|p l IH]; intros Hb; simpl; [reflexivity|].
  rewrite IH by (intros q Hq; apply Hb; now right).
  unfold picks at 2.
  destruct (Hb p (or_introl eq_refl)) as [-> | ->]; simpl; lia.
Qed.

Lemma Zsum_const_one {A} (l : list A) : Zsum (map (fun _ => 1%Z) l) = Z.of_nat (length l).
Proof. induction l as [|a l IH]; simpl length; simpl Zsum; lia. Qed.

Lemma count_picks V t (l : list nat) :
  (forall p, In p l -> V (x_var p t) = 0%Z \/ V (x_var p t) = 1%Z) ->
  Zsum (map (fun p => eval V (Var (x_var p t))) l)
  = Z.of_nat (length (List.filter (picks V t) l)).
Proof.
  intros Hb. rewrite <- Zsum_const_one, <- (Zsum_picks (fun _ => 1%Z)) by assumption.
  f_equal. apply map_ext. intros p. simpl. lia.
Qed.

(** ** The shape of the model *)

Lemma Ok_inj {A} (a b : A) : Ok a = Ok b -> a = b.
Proof. now intros [= ->]. Qed.

Lemma for_each_cons {S A} (a : A) l (body : A -> S -> S) s :
  for_each (a :: l) body s = for_each l body (body a s).
Proof. reflexivity. Qed.

Lemma constraints_for_each {A} (f : A -> list Constraint) body (l : list A) m :
  (forall a m, constraints (body a m) = constraints m ++ f a) ->
  constraints (for_each l body m) = constraints m ++ flat_map f l.
Proof.
  intros Hbody. revert m. induction l as [|a l IH]; intros m.
  - simpl. now rewrite app_nil_r.
  - rewrite for_each_cons, IH, Hbody. simpl. now rewrite <- app_assoc.
Qed.

Lemma variables_for_each {A} (f : A -> list (IntVar * (Z * Z))) body (l : list A) m :
  (forall a m, variables (body a m) = variables m ++ f a) ->
  variables (for_each l body m) = variables m ++ flat_map f l.
Proof.
  intros Hbody. revert m. induction l as [|a l IH]; intros m.
  - simpl. now rewrite app_nil_r.
  - rewrite for_each_cons, IH, Hbody. simpl. now rewrite <- app_assoc.
Qed.

Lemma constraints_for_each_keep {A} body (l : list A) m :
  (forall a m, constraints (body a m) = constraints m) ->
  constraints (for_each l body m) = constraints m.
Proof.
  intros Hbody. revert m. induction l as [|a l IH]; intros m; [reflexivity|].
  now rewrite for_each_cons, IH, Hbody.
Qed.

Lemma variables_for_each_keep {A} body (l : list A) m :
  (forall a m, variables (body a m) = variables m) ->
  variables (for_each l body m) = variables m.
Proof.
  intros Hbody. revert m. induction l as [|a l IH]; intros m; [reflexivity|].
  now rewrite for_each_cons, IH, Hbody.
Qed.

Lemma mapM_result_length {A B} (f : A -> result B) l bs :
  mapM_result f l = Ok bs -> length bs = length l.
Proof.
  revert bs. induction l as [|a l IH]; intros bs; simpl.
  - intros [= <-]. reflexivity.
  - destruct (f a) as [b|]; simpl; [|discriminate].
    destruct (mapM_result f l) as [bs'|]; simpl; [|discriminate].
    intros [= <-]. simpl. f_equal. now apply IH.
Qed.

Lemma mapM_result_lookup {A B} (f : A -> result B) l bs i a :
  mapM_result f l = Ok bs -> l !! i = Some a ->
  exists b, bs !! i = Some b /\ f a = Ok b.
Proof.
  revert bs i. induction l as [|a' l IH]; intros bs i; simpl.
  - intros _ Hl. discriminate.
  - destruct (f a') as [b'|] eqn:Hf; simpl; [|discriminate].
    destruct (mapM_result f l) as [bs'|]; simpl; [|discriminate].
    intros [= <-]. destruct i as [|i]; simpl.
    + intros [= ->]. eauto.
    + intros Hl. now apply IH.
Qed.

Lemma skill_term_of_score players skills :
  mapM_result skill_score players = Ok skills ->
  exists terms, mapM_result skill_term players = Ok terms.
Proof.
  revert skills. induction players as [|row players IH]; intros skills; [now exists []|].
  cbn [mapM_result]. unfold skill_score at 1, skill_term at 1.
  destruct (getitem "skill_score" row) as [v|]; cbn [bind]; [|discriminate].
  destruct (mapM_result skill_score players) as [zs|] eqn:Hzs.
  - destruct (IH zs eq_refl) as [terms ->].
    destruct v; cbn [bind]; try discriminate; eauto.
  - destruct v as [|z|b| |]; cbn [bind]; try discriminate.
    destruct (int64 z); cbn [bind]; discriminate.
Qed.

Lemma build_model_inv players m :
  build_model players = Ok m ->
  exists positions skills,
    mapM_result (getitem "position") players = Ok positions /\
    mapM_result skill_score players = Ok skills /\
    variables m
    = flat_map (fun p => flat_map (fun t => [(x_var p t, (0, 1)%Z)]) (seq 0 num_teams))
        (seq 0 (length players)) ++ [(diff_var, (0, 100000)%Z)] /\
    constraints m
    = flat_map one_team_constraint (seq 0 (length players))
      ++ flat_map (size_constraints (length players)) (seq 0 num_teams)
      ++ flat_map (position_constraints positions) (py_set positions)
      ++ [AbsEquality diff_var
            (Minus (team_score (length players) skills 0)
                   (team_score (length players) skills 1))].
Proof.
  unfold build_model.
  destruct (mapM_result (getitem "position") players) as [positions|] eqn:Hpos;
    cbn [bind]; [|discriminate].
  destruct (mapM_result skill_term players) as [terms|];
    cbn [bind]; [|discriminate].
  destruct (mapM_result skill_score players) as [skills|] eqn:Hsk;
    cbn [bind]; [|discriminate].
  intros Hm. apply Ok_inj in Hm. subst m. exists positions, skills. split; [reflexivity|]. split; [reflexivity|].
  split.
  - cbn [variables Minimize AddAbsEquality Add NewIntVar]. f_equal.
    rewrite variables_for_each_keep.
    2:{ intros pos m. apply variables_for_each_keep. reflexivity. }
    rewrite variables_for_each_keep by reflexivity.
    rewrite variables_for_each_keep by reflexivity.
    rewrite (variables_for_each
               (fun p => flat_map (fun t => [(x_var p t, (0, 1)%Z)]) (seq 0 num_teams))).
    + reflexivity.
    + intros p m. apply (variables_for_each (fun t => [(x_var p t, (0, 1)%Z)])).
      reflexivity.
  - cbn [constraints Minimize AddAbsEquality Add NewIntVar].
    rewrite (constraints_for_each (position_constraints positions)).
    2:{ intros pos m. unfold position_constraints.
        apply (constraints_for_each (fun t => [_; _])).
        intros t m'. simpl. now rewrite <- app_assoc. }
    rewrite (constraints_for_each (size_constraints (length players))).
    2:{ intros t m. unfold size_constraints. simpl. now rewrite <- app_assoc. }
    rewrite (constraints_for_each one_team_constraint) by reflexivity.
    rewrite constraints_for_each_keep.
    2:{ intros p m. apply constraints_for_each_keep. reflexivity. }
    simpl constraints at 1. rewrite <- !app_assoc. reflexivity.
Qed.

(** ** What a valuation that satisfies the model gives *)

Lemma forallb_flat_map {A B} (f : B -> bool) (g : A -> list B) (l : list A) a :
  forallb f (flat_map g l) = true -> In a l -> forallb f (g a) = true.
Proof.
  intros H Ha. apply forallb_forall. intros b Hb.
  rewrite forallb_forall in H. apply H. apply in_flat_map. eauto.
Qed.

Lemma check_model_satisfying players m positions skills V :
  build_model players = Ok m ->
  mapM_result (getitem "position") players = Ok positions ->
  mapM_result skill_score players = Ok skills ->
  check_model m V = true ->
  satisfying (length players) positions skills V.
Proof.
  intros Hm Hpos Hsk Hc.
  destruct (build_model_inv _ _ Hm) as (positions' & skills' & Hpos' & Hsk' & Hv & Hcs).
  rewrite Hpos in Hpos'. rewrite Hsk in Hsk'.
  apply Ok_inj in Hpos'. apply Ok_inj in Hsk'. subst positions' skills'.
  unfold check_model in Hc. rewrite Hv, Hcs in Hc.
  rewrite !forallb_app in Hc.
  apply andb_prop in Hc as [Hdom Hc].
  apply andb_prop in Hdom as [Hx Hd].
  apply andb_prop in Hc as [Hone Hc].
  apply andb_prop in Hc as [Hsize Hc].
  apply andb_prop in Hc as [Hposc Habs].
  assert (Hbool : forall p t, (p < length players)%nat -> (t < num_teams)%nat ->
            V (x_var p t) = 0%Z \/ V (x_var p t) = 1%Z).
  { intros p t Hp Ht.
    assert (H1 := forallb_flat_map _ _ _ p Hx ltac:(apply in_seq; lia)).
    assert (H2 := forallb_flat_map _ _ _ t H1 ltac:(apply in_seq; lia)).
    simpl in H2. reflect_in H2. lia. }
  split.
  - exact Hbool.
  - intros p Hp.
    assert (H1 := forallb_flat_map _ _ _ p Hone ltac:(apply in_seq; lia)).
    unfold one_team_constraint in H1. simpl in H1. reflect_in H1. lia.
  - intros t Ht.
    assert (H1 := forallb_flat_map _ _ _ t Hsize ltac:(apply in_seq; lia)).
    unfold size_constraints in H1. cbn [forallb holds] in H1. reflect_in H1. lia.
  - intros pos t Hin Ht.
    assert (H1 := forallb_flat_map _ _ _ pos Hposc Hin).
    unfold position_constraints in H1.
    assert (H2 := forallb_flat_map _ _ _ t H1 ltac:(apply in_seq; lia)).
    cbn [forallb holds] in H2. reflect_in H2. lia.
  - simpl in Hd. reflect_in Hd. lia.
  - cbn [forallb holds eval] in Habs. reflect_in Habs. lia.
Qed.

(** ** Reading the rosters off a valuation *)

Lemma extract_body cohort_name V p (pl : list record) (a b : list nat) :
  for_each (seq 0 num_teams)
    (fun t (s : list record * list (nat * list nat)) =>
       if (V (x_var p t) =? 1)%Z then
         (alter (insert "Assigned_Team" (VStr (team_label cohort_name t))) p s.1,
          alist_alter (fun r => r ++ [p]) t s.2)
       else s)
    (pl, [(0, a); (1, b)]%nat)
  = (alter (labelled cohort_name V p) p pl,
     [(0, a ++ List.filter (picks V 0) [p]); (1, b ++ List.filter (picks V 1) [p])]%nat).
Proof.
  unfold labelled, picks. cbn [seq num_teams for_each fold_left List.filter].
  destruct (V (x_var p 0) =? 1)%Z, (V (x_var p 1) =? 1)%Z; cbn;
    rewrite ?app_nil_r; f_equal.
  - apply list_alter_alter_eq.
  - symmetry. apply list_alter_id. reflexivity.
Qed.

Lemma extract_loop cohort_name V (idx : list nat) (pl : list record) (a b : list nat) :
  for_each idx (fun p =>
    for_each (seq 0 num_teams)
      (fun t (s : list record * list (nat * list nat)) =>
         if (V (x_var p t) =? 1)%Z then
           (alter (insert "Assigned_Team" (VStr (team_label cohort_name t))) p s.1,
            alist_alter (fun r => r ++ [p]) t s.2)
         else s))
    (pl, [(0, a); (1, b)]%nat)
  = (relabel cohort_name V pl idx,
     [(0, a ++ List.filter (picks V 0) idx); (1, b ++ List.filter (picks V 1) idx)]%nat).
Proof.
  revert pl a b. induction idx as [|p idx IH]; intros pl a b.
  - simpl. now rewrite !app_nil_r.
  - rewrite for_each_cons, extract_body, IH. unfold relabel. simpl.
    destruct (picks V 0 p), (picks V 1 p); simpl; rewrite <- ?app_assoc, ?app_nil_r;
      reflexivity.
Qed.

Lemma extract_spec cohort_name V players :
  extract cohort_name V players
  = (relabel cohort_name V players (seq 0 (length players)),
     [(0, List.filter (picks V 0) (seq 0 (length players)));
      (1, List.filter (picks V 1) (seq 0 (length players)))]%nat).
Proof. unfold extract. now rewrite extract_loop. Qed.

Lemma relabel_lookup cohort_name V (idx : list nat) (pl : list record) i :
  NoDup idx ->
  relabel cohort_name V pl idx !! i
  = if decide (i ∈ idx) then labelled cohort_name V i <$> pl !! i else pl !! i.
Proof.
  revert pl. induction idx as [|p idx IH]; intros pl Hnd; [reflexivity|].
  apply NoDup_cons in Hnd as [Hp Hnd].
  change (relabel cohort_name V pl (p :: idx))
    with (relabel cohort_name V (alter (labelled cohort_name V p) p pl) idx).
  rewrite IH by assumption.
  destruct (decide (i = p)) as [->|Hne].
  - rewrite decide_False by assumption. rewrite decide_True by apply list_elem_of_here.
    apply list_lookup_alter_eq.
  - rewrite list_lookup_alter_ne by congruence.
    destruct (decide (i ∈ idx)) as [Hin|Hin].
    + rewrite decide_True by now apply list_elem_of_further. reflexivity.
    + rewrite decide_False; [reflexivity|].
      intros [?|?]%elem_of_cons; congruence.
Qed.

Lemma relabel_lookup_total cohort_name V (players : list record) p :
  (p < length players)%nat ->
  relabel cohort_name V players (seq 0 (length players)) !!! p
  = labelled cohort_name V p (players !!! p).
Proof.
  intros Hp. apply list_lookup_total_correct.
  rewrite relabel_lookup by apply NoDup_seq.
  rewrite decide_True by (apply elem_of_seq; lia).
  rewrite (list_lookup_lookup_total_lt players p Hp). reflexivity.
Qed.

Lemma picks_exclusive n positions skills V p :
  satisfying n positions skills V -> (p < n)%nat ->
  picks V 1 p = negb (picks V 0 p).
Proof.
  intros HV Hp. unfold picks.
  pose proof (sat_one_team _ _ _ _ HV p Hp) as H1.
  destruct (sat_bool _ _ _ _ HV p 0%nat Hp ltac:(unfold num_teams; lia)) as [H0|H0];
    rewrite H0 in *; simpl.
  - apply Z.eqb_eq. lia.
  - apply Z.eqb_neq. lia.
Qed.

Lemma labelled_picked cohort_name n positions skills V p t (r : record) :
  satisfying n positions skills V -> (p < n)%nat -> (t < num_teams)%nat ->
  picks V t p = true ->
  labelled cohort_name V p r = <["Assigned_Team" := VStr (team_label cohort_name t)]> r.
Proof.
  intros HV Hp Ht Hpick. pose proof (picks_exclusive _ _ _ _ p HV Hp) as Hex.
  unfold labelled. cbn [seq num_teams for_each fold_left].
  unfold num_teams in Ht.
  destruct t as [|[|t]]; [| |lia].
  - rewrite Hpick in *. simpl in Hex. now rewrite Hex.
  - rewrite Hpick in *. now destruct (picks V 0 p).
Qed.

Lemma deref_relabel cohort_name n positions skills V players t :
  satisfying n positions skills V -> n = length players -> (t < num_teams)%nat ->
  map (fun p => relabel cohort_name V players (seq 0 (length players)) !!! p)
      (List.filter (picks V t) (seq 0 (length players)))
  = roster_of cohort_name V players t.
Proof.
  intros HV -> Ht. unfold roster_of. apply map_ext_in.
  intros p [Hp Hpick]%filter_In. apply in_seq in Hp.
  rewrite relabel_lookup_total by lia.
  apply (labelled_picked _ _ _ _ _ _ _ _ HV); [lia|assumption|assumption].
Qed.

Lemma solve_cohort_v2_inv Solve cohort_name players rosters d :
  solver_sound Solve ->
  solve_cohort_v2 Solve cohort_name players = Ok (Some (rosters, d)) ->
  exists V positions skills,
    mapM_result (getitem "position") players = Ok positions /\
    mapM_result skill_score players = Ok skills /\
    satisfying (length players) positions skills V /\
    rosters = [(0, roster_of cohort_name V players 0);
               (1, roster_of cohort_name V players 1)]%nat /\
    d = V diff_var.
Proof.
  intros Hsound. unfold solve_cohort_v2.
  destruct (build_model players) as [m|] eqn:Hm; cbn [bind]; [|discriminate].
  pose proof (Hsound m) as Hs.
  destruct (Solve m) as [status V]. cbn [fst snd] in Hs.
  destruct (bool_decide (status = OPTIMAL) || bool_decide (status = FEASIBLE)) eqn:Hst;
    [|discriminate].
  rewrite extract_spec. intros Hr. apply Ok_inj in Hr.
  apply orb_prop in Hst.
  assert (Hc : check_model m V = true).
  { apply Hs. destruct Hst as [H|H]; apply bool_decide_eq_true in H; auto. }
  destruct (build_model_inv _ _ Hm) as (positions & skills & Hpos & Hsk & _ & _).
  pose proof (check_model_satisfying _ _ _ _ _ Hm Hpos Hsk Hc) as HV.
  exists V, positions, skills. split; [assumption|]. split; [assumption|].
  split; [assumption|].
  injection Hr as <- <-. split; [|reflexivity].
  unfold deref. cbn [map fst snd].
  rewrite !(deref_relabel _ _ _ _ _ _ _ HV) by (unfold num_teams; auto).
  reflexivity.
Qed.

(** ** The reference solver keeps the contract *)

Lemma fold_left_choice {A} (P : A -> Prop) (better : A -> A -> bool) (l : list A) a :
  P a -> Forall P l ->
  P (fold_left (fun best a' => if better a' best then a' else best) l a).
Proof.
  revert a. induction l as [|b l IH]; intros a Ha Hl; [exact Ha|].
  apply Forall_cons in Hl as [Hb Hl]. simpl.
  apply IH; [|assumption]. now destruct (better b a).
Qed.

Lemma exhaustive_solve_sound : solver_sound exhaustive_solve.
Proof.
  intros m. unfold exhaustive_solve.
  destruct (List.filter (check_model m)
              (map (settle_abs (constraints m)) (candidates (variables m))))
    as [|V rest] eqn:Hf; cbn [fst snd].
  - intros [H|H]; discriminate.
  - intros _.
    assert (Hall : Forall (fun V => check_model m V = true) (V :: rest)).
    { rewrite <- Hf. apply Forall_forall. intros V'.
      rewrite list_elem_of_In. intros HV'. now apply filter_In in HV'. }
    apply Forall_cons in Hall as [HV Hrest].
    apply (fold_left_choice (fun V => check_model m V = true)
             (fun V' best => (objective_value m V' <? objective_value m best)%Z));
      assumption.
Qed.

(** ** Two complementary filters split a list *)

Lemma filter_complement_length {A} (f g : A -> bool) (l : list A) :
  (forall a, In a l -> g a = negb (f a)) ->
  (length (List.filter f l) + length (List.filter g l))%nat = length l.
Proof.
  induction l as [|a l IH]; intros Hc; [reflexivity|]. simpl.
  rewrite (Hc a (or_introl eq_refl)).
  specialize (IH (fun b Hb => Hc b (or_intror Hb))).
  destruct (f a); simpl; lia.
Qed.

Lemma filter_complement_Permutation {A} (f g : A -> bool) (l : list A) :
  (forall a, In a l -> g a = negb (f a)) ->
  Permutation (List.filter f l ++ List.filter g l) l.
Proof.
  induction l as [|a l IH]; intros Hc; [constructor|]. simpl.
  rewrite (Hc a (or_introl eq_refl)).
  specialize (IH (fun b Hb => Hc b (or_intror Hb))).
  destruct (f a); simpl.
  - now constructor.
  - symmetry. apply Permutation_cons_app. now symmetry.
Qed.

Lemma half_split (a b n : nat) :
  (a + b = n)%nat ->
  (n / 2 <= a <= n / 2 + 1)%nat -> (n / 2 <= b <= n / 2 + 1)%nat ->
  (a = n / 2 /\ b = (n + 1) / 2)%nat \/ (a = (n + 1) / 2 /\ b = n / 2)%nat.
Proof.
  intros Hab Ha Hb.
  pose proof (Nat.div_mod_eq n 2) as Hn.
  pose proof (Nat.mod_upper_bound n 2 ltac:(lia)) as Hr.
  pose proof (Nat.div_mod_eq (n + 1) 2) as Hn'.
  pose proof (Nat.mod_upper_bound (n + 1) 2 ltac:(lia)) as Hr'.
  lia.
Qed.

(** ** Team sizes *)

Lemma eval_team_size n positions skills V (idx : list nat) t :
  satisfying n positions skills V -> (t < num_teams)%nat ->
  (forall p, In p idx -> (p < n)%nat) ->
  eval V (team_size idx t) = Z.of_nat (length (List.filter (picks V t) idx)).
Proof.
  intros HV Ht Hidx. unfold team_size. rewrite eval_sum_expr, map_map.
  apply count_picks. intros p Hp. apply (sat_bool _ _ _ _ HV); auto.
Qed.

Lemma roster_of_length cohort_name V players t :
  length (roster_of cohort_name V players t)
  = length (List.filter (picks V t) (seq 0 (length players))).
Proof. unfold roster_of. apply length_map. Qed.

Lemma team_sizes n positions skills V :
  satisfying n positions skills V ->
  let a := length (List.filter (picks V 0) (seq 0 n)) in
  let b := length (List.filter (picks V 1) (seq 0 n)) in
  (a + b = n)%nat /\ (n / 2 <= a <= n / 2 + 1)%nat /\ (n / 2 <= b <= n / 2 + 1)%nat.
Proof.
  intros HV a b.
  assert (Hin : forall p, In p (seq 0 n) -> (p < n)%nat) by (intros p Hp; apply in_seq in Hp; lia).
  split.
  - unfold a, b. rewrite filter_complement_length; [apply length_seq|].
    intros p Hp. apply (picks_exclusive _ _ _ _ _ HV). auto.
  - pose proof (sat_size _ _ _ _ HV 0%nat ltac:(unfold num_teams; lia)) as H0.
    pose proof (sat_size _ _ _ _ HV 1%nat ltac:(unfold num_teams; lia)) as H1.
    rewrite (eval_team_size _ _ _ _ _ _ HV) in H0 by (unfold num_teams; auto).
    rewrite (eval_team_size _ _ _ _ _ _ HV) in H1 by (unfold num_teams; auto).
    unfold num_teams in H0, H1. fold a in H0. fold b in H1. lia.
Qed.

(** C1 (size balance): when [solve_cohort_v2] returns a roster for a list
    of N players, the two teams have floor(N/2) and ceil(N/2) players in
    some order; their sizes sum to N and differ by at most 1. *)
Theorem solve_cohort_v2_size_balance Solve cohort_name players rosters d :
  solver_sound Solve ->
  solve_cohort_v2 Solve cohort_name players = Ok (Some (rosters, d)) ->
  exists team0 team1,
    rosters = [(0, team0); (1, team1)]%nat /\
    ((length team0 = length players / 2 /\ length team1 = (length players + 1) / 2)%nat \/
     (length team0 = (length players + 1) / 2 /\ length team1 = length players / 2)%nat) /\
    (length team0 + length team1 = length players)%nat /\
    (length team0 <= length team1 + 1 /\ length team1 <= length team0 + 1)%nat.
Proof.
  intros Hsound Hsolve.
  destruct (solve_cohort_v2_inv _ _ _ _ _ Hsound Hsolve)
    as (V & positions & skills & _ & _ & HV & -> & _).
  eexists _, _. split; [reflexivity|].
  rewrite !roster_of_length.
  destruct (team_sizes _ _ _ _ HV) as (Hsum & H0 & H1).
  split; [now apply half_split|]. split; [assumption|]. lia.
Qed.

(** ** Positions *)

Lemma py_eq_sym v w : py_eq v w = py_eq w v.
Proof.
  destruct v, w; simpl; try reflexivity;
    apply bool_decide_ext; split; congruence.
Qed.

Lemma py_eq_trans u v w : py_eq u v = true -> py_eq v w = true -> py_eq u w = true.
Proof.
  destruct u, v, w; simpl; try discriminate;
    rewrite ?bool_decide_eq_true, ?Z.eqb_eq; intros H1 H2;
    try discriminate; try congruence;
    repeat match goal with b : bool |- _ => destruct b end;
    simpl in *; try (f_equal; lia); try lia; try congruence.
Qed.

Lemma py_eq_right u v x : py_eq u v = true -> py_eq x u = py_eq x v.
Proof.
  intros Huv. destruct (py_eq x u) eqn:E1, (py_eq x v) eqn:E2; try reflexivity.
  - rewrite (py_eq_trans _ _ _ E1 Huv) in E2. discriminate.
  - rewrite py_eq_sym in Huv. rewrite (py_eq_trans _ _ _ E2 Huv) in E1. discriminate.
Qed.

Lemma py_set_representative (l : list value) v :
  In v l -> exists u, In u (py_set l) /\ (u = v \/ py_eq u v = true).
Proof.
  induction l as [|v0 l IH]; intros Hin; [contradiction|].
  destruct Hin as [->|Hin].
  - exists v. split; [now left|now left].
  - destruct (IH Hin) as (u & Hu & Huv). simpl.
    destruct (py_same v0 u) eqn:Hs.
    + exists v0. split; [now left|].
      unfold py_same in Hs. apply orb_prop in Hs.
      destruct Hs as [Hs|Hs].
      * apply bool_decide_eq_true in Hs. subst u. exact Huv.
      * destruct Huv as [->|Huv]; [now right|]. right. eapply py_eq_trans; eassumption.
    + exists u. split; [|exact Huv]. right. apply filter_In. split; [assumption|].
      now rewrite Hs.
Qed.

Lemma math_ceil_div_two (c : nat) : math_ceil_div c 2 = Z.of_nat ((c + 1) / 2).
Proof.
  unfold math_ceil_div.
  pose proof (Nat.div_mod_eq (c + 1) 2) as Hn.
  pose proof (Nat.mod_upper_bound (c + 1) 2 ltac:(lia)) as Hr.
  change (Z.of_nat 2) with 2%Z.
  pose proof (Z.div_mod (- Z.of_nat c) 2 ltac:(lia)) as Hz.
  pose proof (Z.mod_pos_bound (- Z.of_nat c) 2 ltac:(lia)) as Hb.
  lia.
Qed.

Lemma filter_indices {A} `{Inhabited A} (f : A -> bool) (l : list A) :
  List.filter f l = map (fun i => l !!! i) (List.filter (fun i => f (l !!! i)) (seq 0 (length l))).
Proof.
  induction l as [|a l IH] using rev_ind; [reflexivity|].
  rewrite length_app, Nat.add_comm. simpl length. rewrite seq_S, !List.filter_app, map_app.
  f_equal.
  - rewrite IH at 1.
    rewrite (filter_ext_in (fun i => f ((l ++ [a]) !!! i)) (fun i => f (l !!! i))).
    + apply map_ext_in. intros i [Hi _]%filter_In. apply in_seq in Hi.
      symmetry. apply lookup_total_app_l. lia.
    + intros i Hi. apply in_seq in Hi. f_equal. apply lookup_total_app_l. lia.
  - assert (E : (l ++ [a]) !!! length l = a).
    { apply list_lookup_total_correct.
      rewrite lookup_app_r by lia. now rewrite Nat.sub_diag. }
    simpl. rewrite E. destruct (f a); simpl; rewrite ?E; reflexivity.
Qed.

Lemma getitem_cell key (r : record) v : getitem key r = Ok v -> cell key r = v.
Proof.
  unfold getitem, cell. destruct (r !! key); [|discriminate]. now intros [= ->].
Qed.

Lemma position_cell players positions p :
  mapM_result (getitem "position") players = Ok positions ->
  (p < length players)%nat ->
  cell "position" (players !!! p) = positions !!! p.
Proof.
  intros Hpos Hp.
  destruct (mapM_result_lookup _ _ _ p _ Hpos (list_lookup_lookup_total_lt players p Hp))
    as (v & Hv & Hget).
  rewrite (list_lookup_total_correct _ _ _ Hv). now apply getitem_cell.
Qed.

Lemma filter_map_length {A B} (f : B -> bool) (g : A -> B) (l : list A) :
  length (List.filter f (map g l)) = length (List.filter (fun a => f (g a)) l).
Proof.
  induction l as [|a l IH]; [reflexivity|]. simpl.
  destruct (f (g a)); simpl; now rewrite IH.
Qed.

Lemma filter_filter_comm {A} (f g : A -> bool) (l : list A) :
  List.filter f (List.filter g l) = List.filter g (List.filter f l).
Proof.
  induction l as [|a l IH]; [reflexivity|]. simpl.
  destruct (f a) eqn:Hf, (g a) eqn:Hg; simpl; rewrite ?Hf, ?Hg, IH; reflexivity.
Qed.

Lemma count_position_players players positions pos :
  mapM_result (getitem "position") players = Ok positions ->
  count_position pos players = length (pos_indices_of positions pos).
Proof.
  intros Hpos. unfold count_position, pos_indices_of.
  rewrite filter_indices, length_map, (mapM_result_length _ _ _ Hpos).
  f_equal. apply filter_ext_in. intros p Hp. apply in_seq in Hp.
  now rewrite (position_cell _ _ _ Hpos) by lia.
Qed.

Lemma count_position_roster cohort_name V players positions pos t :
  mapM_result (getitem "position") players = Ok positions ->
  count_position pos (roster_of cohort_name V players t)
  = length (List.filter (picks V t) (pos_indices_of positions pos)).
Proof.
  intros Hpos. unfold count_position, roster_of, pos_indices_of.
  rewrite filter_map_length, (mapM_result_length _ _ _ Hpos), filter_filter_comm.
  do 2 f_equal. apply filter_ext_in. intros p Hp. apply in_seq in Hp.
  unfold cell. rewrite lookup_insert_ne by discriminate.
  fold (cell "position" (players !!! p)).
  now rewrite (position_cell _ _ _ Hpos) by lia.
Qed.

Lemma position_balance n positions skills V pos t :
  satisfying n positions skills V -> length positions = n -> (t < num_teams)%nat ->
  (length (pos_indices_of positions pos) / 2
   <= length (List.filter (picks V t) (pos_indices_of positions pos))
   <= (length (pos_indices_of positions pos) + 1) / 2)%nat.
Proof.
  intros HV Hlen Ht.
  destruct (pos_indices_of positions pos) as [|i idx] eqn:Hidx.
  - simpl. lia.
  - rewrite <- Hidx.
    assert (Hi : In i (pos_indices_of positions pos)) by (rewrite Hidx; now left).
    apply filter_In in Hi as [Hi Heq]. apply in_seq in Hi.
    assert (Hx : In (positions !!! i) positions).
    { apply list_elem_of_In, list_elem_of_lookup. exists i.
      apply list_lookup_lookup_total_lt. lia. }
    destruct (py_set_representative _ _ Hx) as (u & Hu & Hux).
    assert (Hup : py_eq u pos = true).
    { destruct Hux as [->|Hux]; [assumption|]. eapply py_eq_trans; eassumption. }
    assert (Hsame : pos_indices_of positions u = pos_indices_of positions pos).
    { unfold pos_indices_of. apply filter_ext. intros j. now apply py_eq_right. }
    pose proof (sat_position _ _ _ _ HV u t Hu Ht) as Hb.
    rewrite Hsame in Hb.
    rewrite (eval_team_size _ _ _ _ _ _ HV Ht) in Hb.
    + rewrite math_ceil_div_two in Hb. unfold num_teams in Hb. lia.
    + intros p [Hp _]%filter_In. apply in_seq in Hp. lia.
Qed.

(** C2 (position balance): when [solve_cohort_v2] returns a roster, for
    every position with count C in the list of players, each of the two
    teams has at least floor(C/2) and at most ceil(C/2) players of that
    position. *)
Theorem solve_cohort_v2_position_balance Solve cohort_name players rosters d pos t team :
  solver_sound Solve ->
  solve_cohort_v2 Solve cohort_name players = Ok (Some (rosters, d)) ->
  In (t, team) rosters ->
  (count_position pos players / 2
   <= count_position pos team
   <= (count_position pos players + 1) / 2)%nat.
Proof.
  intros Hsound Hsolve Hin.
  destruct (solve_cohort_v2_inv _ _ _ _ _ Hsound Hsolve)
    as (V & positions & skills & Hpos & _ & HV & -> & _).
  rewrite (count_position_players _ _ _ Hpos).
  pose proof (mapM_result_length _ _ _ Hpos) as Hlen.
  destruct Hin as [[= <- <-]|[[= <- <-]|[]]];
    rewrite (count_position_roster _ _ _ _ _ _ Hpos);
    apply (position_balance _ _ _ _ _ _ HV Hlen); unfold num_teams; lia.
Qed.

(** ** Coverage *)

Lemma map_lookup_total_seq {A} `{Inhabited A} (l : list A) :
  map (fun i => l !!! i) (seq 0 (length l)) = l.
Proof.
  pose proof (filter_indices (fun _ => true) l) as E.
  rewrite !forallb_filter_id in E by (apply forallb_forall; reflexivity).
  now symmetry.
Qed.

Lemma unlabel_roster cohort_name V players t :
  map (delete "Assigned_Team") (roster_of cohort_name V players t)
  = map (fun p => delete "Assigned_Team" (players !!! p))
        (List.filter (picks V t) (seq 0 (length players))).
Proof.
  unfold roster_of. rewrite map_map. apply map_ext. intros p. apply delete_insert_eq.
Qed.

(** C3 (coverage): when [solve_cohort_v2] returns a roster, the two
    teams are made of the players of the input list, each taken exactly
    once (the indices of the two teams are a permutation of the indices
    of the list) and given the label of its team; no player is dropped or
    duplicated. *)
Theorem solve_cohort_v2_coverage Solve cohort_name players rosters d :
  solver_sound Solve ->
  solve_cohort_v2 Solve cohort_name players = Ok (Some (rosters, d)) ->
  exists idx0 idx1 : list nat,
    Permutation (idx0 ++ idx1) (seq 0 (length players)) /\
    rosters =
      [(0, map (fun p => <["Assigned_Team" := VStr (team_label cohort_name 0)]>
                           (players !!! p)) idx0);
       (1, map (fun p => <["Assigned_Team" := VStr (team_label cohort_name 1)]>
                           (players !!! p)) idx1)]%nat /\
    Permutation (map (delete "Assigned_Team") (flat_map snd rosters))
                (map (delete "Assigned_Team") players).
Proof.
  intros Hsound Hsolve.
  destruct (solve_cohort_v2_inv _ _ _ _ _ Hsound Hsolve)
    as (V & positions & skills & _ & _ & HV & -> & _).
  exists (List.filter (picks V 0) (seq 0 (length players))),
         (List.filter (picks V 1) (seq 0 (length players))).
  assert (Hperm : Permutation
            (List.filter (picks V 0) (seq 0 (length players))
             ++ List.filter (picks V 1) (seq 0 (length players)))
            (seq 0 (length players))).
  { apply filter_complement_Permutation. intros p Hp. apply in_seq in Hp.
    apply (picks_exclusive _ _ _ _ _ HV). lia. }
  split; [exact Hperm|]. split; [reflexivity|].
  cbn [flat_map snd]. rewrite app_nil_r, map_app, !unlabel_roster, <- map_app.
  replace (map (delete "Assigned_Team") players)
    with (map (fun p => delete "Assigned_Team" (players !!! p)) (seq 0 (length players)))
    by (rewrite <- (map_map (fun p => players !!! p)), map_lookup_total_seq; reflexivity).
  now apply Permutation_map.
Qed.

(** ** The reported skill difference *)

Lemma mapM_result_map {A B C} (f : B -> result C) (g : A -> B) (h : A -> C) (l : list A) :
  (forall a, In a l -> f (g a) = Ok (h a)) ->
  mapM_result f (map g l) = Ok (map h l).
Proof.
  induction l as [|a l IH]; intros Hl; [reflexivity|]. simpl.
  rewrite (Hl a (or_introl eq_refl)). cbn [bind].
  rewrite IH by (intros b Hb; apply Hl; now right). reflexivity.
Qed.

Lemma skill_score_labelled (r : record) label :
  skill_score (<["Assigned_Team" := label]> r) = skill_score r.
Proof.
  unfold skill_score, getitem. now rewrite lookup_insert_ne by discriminate.
Qed.

Lemma skill_score_lookup players skills p :
  mapM_result skill_score players = Ok skills ->
  (p < length players)%nat ->
  skill_score (players !!! p) = Ok (skills !!! p).
Proof.
  intros Hsk Hp.
  destruct (mapM_result_lookup _ _ _ p _ Hsk (list_lookup_lookup_total_lt players p Hp))
    as (z & Hz & Hget).
  now rewrite (list_lookup_total_correct _ _ _ Hz).
Qed.

Lemma total_skill_roster cohort_name n positions skills V players t :
  satisfying n positions skills V -> n = length players -> (t < num_teams)%nat ->
  mapM_result skill_score players = Ok skills ->
  total_skill (roster_of cohort_name V players t) = Ok (eval V (team_score n skills t)).
Proof.
  intros HV -> Ht Hsk. unfold total_skill, roster_of.
  rewrite (mapM_result_map _ _ (fun p => skills !!! p)).
  - cbn [bind]. f_equal. unfold team_score.
    rewrite eval_sum_expr, map_map. cbn [eval].
    symmetry. apply Zsum_picks. intros p Hp. apply in_seq in Hp.
    apply (sat_bool _ _ _ _ HV); [lia|assumption].
  - intros p [Hp _]%filter_In. apply in_seq in Hp.
    rewrite skill_score_labelled. apply skill_score_lookup; [assumption|lia].
Qed.

(** C4 (objective correctness): when [solve_cohort_v2] returns rosters
    and a skill difference, that difference is the absolute value of the
    difference of the sums of [skill_score] over the two rosters,
    recomputed from the rosters. *)
Theorem solve_cohort_v2_skill_diff Solve cohort_name players rosters d :
  solver_sound Solve ->
  solve_cohort_v2 Solve cohort_name players = Ok (Some (rosters, d)) ->
  exists team0 team1 s0 s1,
    rosters = [(0, team0); (1, team1)]%nat /\
    total_skill team0 = Ok s0 /\
    total_skill team1 = Ok s1 /\
    d = Z.abs (s0 - s1).
Proof.
  intros Hsound Hsolve.
  destruct (solve_cohort_v2_inv _ _ _ _ _ Hsound Hsolve)
    as (V & positions & skills & _ & Hsk & HV & -> & ->).
  eexists _, _, _, _. split; [reflexivity|].
  split; [|split].
  - apply (total_skill_roster _ _ _ _ _ _ _ HV eq_refl); [unfold num_teams; lia|exact Hsk].
  - apply (total_skill_roster _ _ _ _ _ _ _ HV eq_refl); [unfold num_teams; lia|exact Hsk].
  - apply (sat_diff _ _ _ _ HV).
Qed.

(** ** A cohort of one player *)

Lemma build_model_ok players positions skills :
  mapM_result (getitem "position") players = Ok positions ->
  mapM_result skill_score players = Ok skills ->
  exists m, build_model players = Ok m.
Proof.
  intros Hpos Hsk. unfold build_model. rewrite Hpos. cbn [bind].
  destruct (skill_term_of_score _ _ Hsk) as [terms ->]. cbn [bind]. rewrite Hsk.
  cbn [bind]. eauto.
Qed.

Lemma solve_cohort_v2_returns Solve cohort_name players m :
  build_model players = Ok m ->
  exists r, solve_cohort_v2 Solve cohort_name players = Ok r.
Proof.
  intros Hm. unfold solve_cohort_v2. rewrite Hm. cbn [bind].
  destruct (Solve m) as [status V].
  destruct (bool_decide (status = OPTIMAL) || bool_decide (status = FEASIBLE)).
  - destruct (extract cohort_name V players). eauto.
  - eauto.
Qed.

(** A lone player in the first team: the valuation satisfies the model
    as soon as the skill score fits the domain of [diff]. *)
Lemma int64_small z : (Z.abs z <= 100000)%Z -> int64 z = true.
Proof.
  intros Hz. unfold int64. change (2 ^ 63)%Z with 9223372036854775808%Z.
  apply andb_true_iff. split; [apply Z.leb_le|apply Z.ltb_lt]; lia.
Qed.

Lemma single_player_cells (p : record) pos skill :
  p !! "position" = Some pos ->
  p !! "skill_score" = Some (VInt skill) ->
  int64 skill = true ->
  mapM_result (getitem "position") [p] = Ok [pos] /\
  mapM_result skill_score [p] = Ok [skill].
Proof.
  intros Hpos Hskill Hfit. cbn [mapM_result]. unfold skill_score, getitem.
  rewrite Hpos, Hskill. cbn [bind]. rewrite Hfit. split; reflexivity.
Qed.

Lemma single_player_split_satisfies (p : record) pos skill m :
  p !! "position" = Some pos ->
  p !! "skill_score" = Some (VInt skill) ->
  (Z.abs skill <= 100000)%Z ->
  build_model [p] = Ok m ->
  check_model m (single_split skill) = true.
Proof.
  intros Hpos Hskill Hb. unfold build_model.
  cbn [mapM_result]. unfold skill_term, skill_score, getitem.
  rewrite Hpos, Hskill. cbn [bind]. rewrite (int64_small _ Hb). cbn [bind].
  intros Hm. apply Ok_inj in Hm. subst m.
  unfold check_model. cbn. unfold pos_indices_of. cbn.
  destruct (py_eq pos pos); cbn;
    rewrite ?andb_true_iff, ?Z.leb_le, ?Z.eqb_eq; repeat split; try lia;
    unfold num_teams; rewrite math_ceil_div_two; cbn; lia.
Qed.

Lemma solve_cohort_v2_solved Solve cohort_name players m :
  build_model players = Ok m ->
  (Solve m).1 = OPTIMAL \/ (Solve m).1 = FEASIBLE ->
  exists rosters d, solve_cohort_v2 Solve cohort_name players = Ok (Some (rosters, d)).
Proof.
  intros Hm Hst. unfold solve_cohort_v2. rewrite Hm. cbn [bind].
  destruct (Solve m) as [status V]. cbn [fst] in Hst.
  assert (Hb : bool_decide (status = OPTIMAL) || bool_decide (status = FEASIBLE) = true).
  { apply orb_true_iff. destruct Hst as [Hst|Hst]; [left|right];
      now apply bool_decide_eq_true_2. }
  rewrite Hb. destruct (extract cohort_name V players). eauto.
Qed.

(** With one player, the absolute-value constraint gives [diff] the
    absolute value of the player's score. *)
Lemma single_player_diff positions skill V :
  satisfying 1 positions [skill] V -> V diff_var = Z.abs skill.
Proof.
  intros HV. rewrite (sat_diff _ _ _ _ HV).
  pose proof (sat_one_team _ _ _ _ HV 0%nat ltac:(lia)) as H1.
  unfold team_score. rewrite !eval_sum_expr. simpl.
  destruct (sat_bool _ _ _ _ HV 0%nat 0%nat ltac:(lia) ltac:(unfold num_teams; lia)) as [E|E];
    rewrite E in *; lia.
Qed.

Lemma single_player_result Solve cohort_name (p : record) pos skill rosters d :
  solver_sound Solve ->
  p !! "position" = Some pos ->
  p !! "skill_score" = Some (VInt skill) ->
  solve_cohort_v2 Solve cohort_name [p] = Ok (Some (rosters, d)) ->
  d = Z.abs skill /\ (Z.abs skill <= 100000)%Z /\
  exists team0 team1,
    rosters = [(0, team0); (1, team1)]%nat /\
    ((length team0 = 1 /\ length team1 = 0)%nat \/
     (length team0 = 0 /\ length team1 = 1)%nat).
Proof.
  intros Hsound Hpos Hskill Hr.
  destruct (solve_cohort_v2_inv _ _ _ _ _ Hsound Hr)
    as (V & positions & skills & _ & Hsk & HV & -> & ->).
  cbn [mapM_result] in Hsk. unfold skill_score, getitem in Hsk.
  rewrite Hskill in Hsk. cbn [bind] in Hsk.
  destruct (int64 skill); cbn [bind] in Hsk; [|discriminate].
  apply Ok_inj in Hsk. subst skills.
  change (length [p]) with 1%nat in HV.
  pose proof (single_player_diff _ _ _ HV) as Hd.
  pose proof (sat_diff_domain _ _ _ _ HV) as Hdom.
  split; [exact Hd|]. split; [lia|].
  eexists _, _. split; [reflexivity|].
  rewrite !roster_of_length.
  destruct (team_sizes _ _ _ _ HV) as (Hsum & H0 & H1).
  change (length [p]) with 1%nat. change (1 / 2)%nat with 0%nat in *. lia.
Qed.

(** C10, as amended (one player): with a solver that keeps its contract,
    a cohort of exactly one player whose skill score is at most 100000 in
    absolute value gets rosters, never [(None, None)]: the team sizes are
    1 and 0 in some order, which are ceil(1/2) and floor(1/2), the size
    formula of C1 at N = 1, and the skill difference is the absolute
    value of the score.  With a score above 100000 in absolute value the
    call returns [(None, None)]. *)
Theorem solve_cohort_v2_single_player Solve cohort_name (p : record) pos skill :
  solver_sound Solve ->
  solver_complete_on Solve [p] ->
  p !! "position" = Some pos ->
  p !! "skill_score" = Some (VInt skill) ->
  ((Z.abs skill <= 100000)%Z ->
   exists team0 team1,
     solve_cohort_v2 Solve cohort_name [p]
     = Ok (Some ([(0, team0); (1, team1)]%nat, Z.abs skill)) /\
     ((length team0 = 1 /\ length team1 = 0)%nat \/
      (length team0 = 0 /\ length team1 = 1)%nat) /\
     ((length team0 = 1 / 2 /\ length team1 = (1 + 1) / 2)%nat \/
      (length team0 = (1 + 1) / 2 /\ length team1 = 1 / 2)%nat)) /\
  ((100000 < Z.abs skill)%Z -> int64 skill = true ->
   solve_cohort_v2 Solve cohort_name [p] = Ok None).
Proof.
  intros Hsound Hcomplete Hpos Hskill. split.
  - intros Hb.
    destruct (single_player_cells _ _ _ Hpos Hskill (int64_small _ Hb)) as [Hp Hs].
    destruct (build_model_ok _ _ _ Hp Hs) as [m Hm].
    pose proof (single_player_split_satisfies _ _ _ _ Hpos Hskill Hb Hm) as Hsat.
    destruct (solve_cohort_v2_solved Solve cohort_name _ _ Hm (Hcomplete _ _ Hm Hsat))
      as (rosters & d & Hr).
    destruct (single_player_result _ _ _ _ _ _ _ Hsound Hpos Hskill Hr)
      as (-> & _ & team0 & team1 & -> & Hsizes).
    exists team0, team1. split; [exact Hr|]. split; [exact Hsizes|].
    change (1 / 2)%nat with 0%nat. change ((1 + 1) / 2)%nat with 1%nat. tauto.
  - intros Hbig Hfit.
    destruct (single_player_cells _ _ _ Hpos Hskill Hfit) as [Hp Hs].
    destruct (build_model_ok _ _ _ Hp Hs) as [m Hm].
    destruct (solve_cohort_v2_returns Solve cohort_name _ _ Hm) as [[[rosters d]|] Hr];
      [exfalso|exact Hr].
    destruct (single_player_result _ _ _ _ _ _ _ Hsound Hpos Hskill Hr) as (_ & Hle & _).
    lia.
Qed.

(** ** The properties on a cohort of three players *)

Lemma demo_solved :
  solve_cohort_v2 exhaustive_solve "G" demo_cohort = Ok (Some (demo_rosters, 15%Z)).
Proof. reflexivity. Qed.

Lemma solve_cohort_v2_size_balance_witness :
  solver_sound exhaustive_solve /\
  solve_cohort_v2 exhaustive_solve "G" demo_cohort = Ok (Some (demo_rosters, 15%Z)) /\
  exists team0 team1,
    demo_rosters = [(0, team0); (1, team1)]%nat /\
    ((length team0 = length demo_cohort / 2
      /\ length team1 = (length demo_cohort + 1) / 2)%nat \/
     (length team0 = (length demo_cohort + 1) / 2
      /\ length team1 = length demo_cohort / 2)%nat) /\
    (length team0 + length team1 = length demo_cohort)%nat /\
    (length team0 <= length team1 + 1 /\ length team1 <= length team0 + 1)%nat.
Proof.
  split; [exact exhaustive_solve_sound|]. split; [reflexivity|].
  apply (solve_cohort_v2_size_balance exhaustive_solve "G" demo_cohort demo_rosters 15%Z).
  - exact exhaustive_solve_sound.
  - reflexivity.
Defined.

Lemma solve_cohort_v2_position_balance_witness :
  solver_sound exhaustive_solve /\
  solve_cohort_v2 exhaustive_solve "G" demo_cohort = Ok (Some (demo_rosters, 15%Z)) /\
  In (0%nat, [<["Assigned_Team" := VStr "G_Team_1"]> (player "b" "GK" 20 "G");
              <["Assigned_Team" := VStr "G_Team_1"]> (player "c" "DEF" 25 "G")])
     demo_rosters /\
  (count_position (VStr "GK") demo_cohort / 2
   <= count_position (VStr "GK")
        [<["Assigned_Team" := VStr "G_Team_1"]> (player "b" "GK" 20 "G");
         <["Assigned_Team" := VStr "G_Team_1"]> (player "c" "DEF" 25 "G")]
   <= (count_position (VStr "GK") demo_cohort + 1) / 2)%nat.
Proof.
  split; [exact exhaustive_solve_sound|]. split; [reflexivity|].
  split; [now left|].
  apply (solve_cohort_v2_position_balance exhaustive_solve "G" demo_cohort demo_rosters
           15%Z (VStr "GK") 0%nat).
  - exact exhaustive_solve_sound.
  - reflexivity.
  - now left.
Defined.

Lemma solve_cohort_v2_coverage_witness :
  solver_sound exhaustive_solve /\
  solve_cohort_v2 exhaustive_solve "G" demo_cohort = Ok (Some (demo_rosters, 15%Z)) /\
  exists idx0 idx1 : list nat,
    Permutation (idx0 ++ idx1) (seq 0 (length demo_cohort)) /\
    demo_rosters =
      [(0, map (fun p => <["Assigned_Team" := VStr (team_label "G" 0)]>
                           (demo_cohort !!! p)) idx0);
       (1, map (fun p => <["Assigned_Team" := VStr (team_label "G" 1)]>
                           (demo_cohort !!! p)) idx1)]%nat /\
    Permutation (map (delete "Assigned_Team") (flat_map snd demo_rosters))
                (map (delete "Assigned_Team") demo_cohort).
Proof.
  split; [exact exhaustive_solve_sound|]. split; [reflexivity|].
  apply (solve_cohort_v2_coverage exhaustive_solve "G" demo_cohort demo_rosters 15%Z).
  - exact exhaustive_solve_sound.
  - reflexivity.
Defined.

Lemma solve_cohort_v2_skill_diff_witness :
  solver_sound exhaustive_solve /\
  solve_cohort_v2 exhaustive_solve "G" demo_cohort = Ok (Some (demo_rosters, 15%Z)) /\
  exists team0 team1 s0 s1,
    demo_rosters = [(0, team0); (1, team1)]%nat /\
    total_skill team0 = Ok s0 /\
    total_skill team1 = Ok s1 /\
    15%Z = Z.abs (s0 - s1).
Proof.
  split; [exact exhaustive_solve_sound|]. split; [reflexivity|].
  apply (solve_cohort_v2_skill_diff exhaustive_solve "G" demo_cohort demo_rosters 15%Z).
  - exact exhaustive_solve_sound.
  - reflexivity.
Defined.

Lemma exhaustive_solve_complete_on_lone_cohort :
  solver_complete_on exhaustive_solve lone_cohort.
Proof.
  intros m V Hm _. apply Ok_inj in Hm. subst m. left. reflexivity.
Qed.

Lemma solve_cohort_v2_single_player_witness :
  solver_sound exhaustive_solve /\
  solver_complete_on exhaustive_solve [player "a" "DEF" 7 "G"] /\
  player "a" "DEF" 7 "G" !! "position" = Some (VStr "DEF") /\
  player "a" "DEF" 7 "G" !! "skill_score" = Some (VInt 7) /\
  (Z.abs 7 <= 100000)%Z /\
  exists team0 team1,
    solve_cohort_v2 exhaustive_solve "G" [player "a" "DEF" 7 "G"]
    = Ok (Some ([(0, team0); (1, team1)]%nat, Z.abs 7)) /\
    ((length team0 = 1 /\ length team1 = 0)%nat \/
     (length team0 = 0 /\ length team1 = 1)%nat) /\
    ((length team0 = 1 / 2 /\ length team1 = (1 + 1) / 2)%nat \/
     (length team0 = (1 + 1) / 2 /\ length team1 = 1 / 2)%nat).
Proof.
  split; [exact exhaustive_solve_sound|].
  split; [exact exhaustive_solve_complete_on_lone_cohort|].
  split; [reflexivity|]. split; [reflexivity|]. split; [simpl; lia|].
  apply (solve_cohort_v2_single_player exhaustive_solve "G" (player "a" "DEF" 7 "G")
           (VStr "DEF") 7%Z).
  - exact exhaustive_solve_sound.
  - exact exhaustive_solve_complete_on_lone_cohort.
  - reflexivity.
  - reflexivity.
  - simpl. lia.
Defined.

(** C10 as stated fails: [big_lone_cohort] has one player, and the size
    formula at N = 1 allows teams of 1 and 0 players; the split with the
    player in the first team meets every constraint of the model, but
    its skill difference, 100050, is outside the domain of [diff], so the
    model has no solution and the call returns [(None, None)], with the
    reference solver and with every solver that keeps its contract. *)
Lemma lone_player_infeasible_counterexample :
  mapM_result skill_score big_lone_cohort = Ok [100050]%Z /\
  build_model big_lone_cohort = Ok big_lone_model /\
  constraints big_lone_model
  = one_team_constraint 0 ++ flat_map (size_constraints 1) (seq 0 num_teams)
    ++ position_constraints [VStr "DEF"] (VStr "DEF")
    ++ [AbsEquality diff_var (Minus (team_score 1 [100050%Z] 0) (team_score 1 [100050%Z] 1))] /\
  forallb (holds (single_split 100050)) (constraints big_lone_model) = true /\
  solver_sound exhaustive_solve /\
  solver_complete_on exhaustive_solve big_lone_cohort /\
  solve_cohort_v2 exhaustive_solve "G" big_lone_cohort = Ok None /\
  forall Solve, solver_sound Solve -> solve_cohort_v2 Solve "G" big_lone_cohort = Ok None.
Proof.
  assert (Hnone : forall Solve, solver_sound Solve ->
                    solve_cohort_v2 Solve "G" big_lone_cohort = Ok None).
  { intros Solve Hsound.
    destruct (solve_cohort_v2_returns Solve "G" big_lone_cohort big_lone_model eq_refl)
      as [[[rosters d]|] Hr]; [exfalso|exact Hr].
    destruct (single_player_result Solve "G"
                (player "a" "DEF" (calculate_skill 50000 "U17 Premier") "G")
                (VStr "DEF") 100050%Z rosters d Hsound eq_refl eq_refl Hr)
      as (_ & Hle & _).
    simpl in Hle. lia. }
  split; [reflexivity|]. split; [reflexivity|]. split; [reflexivity|].
  split; [reflexivity|]. split; [exact exhaustive_solve_sound|].
  split; [|split; [exact (Hnone _ exhaustive_solve_sound)|exact Hnone]].
  intros m V Hm HV. exfalso.
  destruct (build_model_inv _ _ Hm) as (positions & skills & Hpos & Hsk & _ & _).
  pose proof (check_model_satisfying _ _ _ _ _ Hm Hpos Hsk HV) as Hsat.
  change (mapM_result skill_score big_lone_cohort) with (Ok [100050]%Z) in Hsk.
  apply Ok_inj in Hsk. subst skills. change (length big_lone_cohort) with 1%nat in Hsat.
  pose proof (single_player_diff _ _ _ Hsat) as Hd.
  pose proof (sat_diff_domain _ _ _ _ Hsat) as Hdom.
  simpl in Hd. lia.
Qed.

(** ** Statuses other than OPTIMAL and FEASIBLE *)

(** C8, as amended: when the solver reports a status other than OPTIMAL
    or FEASIBLE, [solve_cohort_v2] returns [(None, None)], no assignment
    and no skill difference, whatever that status is. *)
Theorem solve_cohort_v2_no_solution Solve cohort_name players m :
  build_model players = Ok m ->
  (Solve m).1 <> OPTIMAL ->
  (Solve m).1 <> FEASIBLE ->
  solve_cohort_v2 Solve cohort_name players = Ok None.
Proof.
  intros Hm Ho Hf. unfold solve_cohort_v2. rewrite Hm. cbn [bind].
  destruct (Solve m) as [status V]. cbn [fst] in Ho, Hf.
  now rewrite !bool_decide_eq_false_2 by assumption.
Qed.

Lemma solve_cohort_v2_no_solution_witness :
  build_model demo_cohort = Ok demo_model /\
  (reporting INFEASIBLE demo_model).1 <> OPTIMAL /\
  (reporting INFEASIBLE demo_model).1 <> FEASIBLE /\
  solve_cohort_v2 (reporting INFEASIBLE) "G" demo_cohort = Ok None.
Proof.
  split; [reflexivity|]. split; [discriminate|]. split; [discriminate|].
  apply (solve_cohort_v2_no_solution (reporting INFEASIBLE) "G" demo_cohort demo_model).
  - reflexivity.
  - discriminate.
  - discriminate.
Defined.

(** C8 as stated fails: an infeasible model, an invalid model and a
    search that ended without an answer give the same return value. *)
Lemma solve_cohort_v2_failure_signal_counterexample :
  solve_cohort_v2 (reporting INFEASIBLE) "G" demo_cohort = Ok None /\
  solve_cohort_v2 (reporting MODEL_INVALID) "G" demo_cohort = Ok None /\
  solve_cohort_v2 (reporting UNKNOWN) "G" demo_cohort = Ok None /\
  ~ exists signal : result (option (list (nat * list record) * Z)) -> bool,
      signal (solve_cohort_v2 (reporting INFEASIBLE) "G" demo_cohort) = true /\
      signal (solve_cohort_v2 (reporting MODEL_INVALID) "G" demo_cohort) = false.
Proof.
  split; [reflexivity|]. split; [reflexivity|]. split; [reflexivity|].
  intros (signal & Ht & Hf).
  change (solve_cohort_v2 (reporting MODEL_INVALID) "G" demo_cohort)
    with (solve_cohort_v2 (reporting INFEASIBLE) "G" demo_cohort) in Hf.
  congruence.
Qed.

(** ** The domain of the objective variable *)

Lemma abs_equality_in_model players skills m t e :
  build_model players = Ok m ->
  mapM_result skill_score players = Ok skills ->
  In (AbsEquality t e) (constraints m) ->
  e = Minus (team_score (length players) skills 0) (team_score (length players) skills 1).
Proof.
  intros Hm Hsk Hin.
  destruct (build_model_inv _ _ Hm) as (positions & skills' & _ & Hsk' & _ & Hcs).
  rewrite Hsk in Hsk'. apply Ok_inj in Hsk'. subst skills'.
  rewrite Hcs in Hin.
  apply in_app_or in Hin as [Hin|Hin];
    [|apply in_app_or in Hin as [Hin|Hin];
      [|apply in_app_or in Hin as [Hin|Hin]]].
  - apply in_flat_map in Hin as (p & _ & Hin).
    destruct Hin as [Hin|[]]. discriminate.
  - apply in_flat_map in Hin as (t' & _ & Hin).
    destruct Hin as [Hin|[Hin|[]]]; discriminate.
  - apply in_flat_map in Hin as (pos & _ & Hin).
    apply in_flat_map in Hin as (t' & _ & Hin).
    destruct Hin as [Hin|[Hin|[]]]; discriminate.
  - destruct Hin as [Hin|[]]. now injection Hin as _ <-.
Qed.

Lemma score_gap_bound (s : nat -> Z) V (l : list nat) :
  (forall p t, V (x_var p t) = 0%Z \/ V (x_var p t) = 1%Z) ->
  (Z.abs (Zsum (map (fun p => s p * V (x_var p 0))%Z l)
          - Zsum (map (fun p => s p * V (x_var p 1))%Z l))
   <= Zsum (map (fun p => Z.abs (s p)) l))%Z.
Proof.
  intros Hb. induction l as [|p l IH]; simpl; [lia|].
  destruct (Hb p 0%nat) as [-> | ->], (Hb p 1%nat) as [-> | ->]; lia.
Qed.

(** C7, as amended: the objective variable is declared on the fixed
    domain [0, 100000]; when the absolute values of the skill scores of
    the cohort sum to at most 100000, that domain contains the skill
    differential of every assignment of the players to the two teams. *)
Theorem diff_domain_covers players skills m :
  build_model players = Ok m ->
  mapM_result skill_score players = Ok skills ->
  (Zsum (map Z.abs skills) <= 100000)%Z ->
  In (diff_var, (0, 100000)%Z) (variables m) /\
  forall e V,
    In (AbsEquality diff_var e) (constraints m) ->
    (forall p t, V (x_var p t) = 0%Z \/ V (x_var p t) = 1%Z) ->
    (0 <= Z.abs (eval V e) <= 100000)%Z.
Proof.
  intros Hm Hsk Hsum. split.
  - destruct (build_model_inv _ _ Hm) as (_ & _ & _ & _ & Hv & _).
    rewrite Hv. apply in_or_app. right. now left.
  - intros e V Hin Hb. split; [apply Z.abs_nonneg|].
    rewrite (abs_equality_in_model _ _ _ _ _ Hm Hsk Hin). cbn [eval].
    unfold team_score. rewrite !eval_sum_expr, !map_map. cbn [eval].
    etransitivity; [apply (score_gap_bound (fun p => skills !!! p) V _ Hb)|].
    rewrite <- (map_map (fun p => skills !!! p) Z.abs).
    rewrite <- (mapM_result_length _ _ _ Hsk), map_lookup_total_seq. exact Hsum.
Qed.

Lemma diff_domain_covers_witness :
  build_model demo_cohort = Ok demo_model /\
  mapM_result skill_score demo_cohort = Ok [30; 20; 25]%Z /\
  (Zsum (map Z.abs [30; 20; 25]) <= 100000)%Z /\
  In (diff_var, (0, 100000)%Z) (variables demo_model) /\
  forall e V,
    In (AbsEquality diff_var e) (constraints demo_model) ->
    (forall p t, V (x_var p t) = 0%Z \/ V (x_var p t) = 1%Z) ->
    (0 <= Z.abs (eval V e) <= 100000)%Z.
Proof.
  split; [reflexivity|]. split; [reflexivity|]. split; [simpl; lia|].
  apply (diff_domain_covers demo_cohort [30; 20; 25]%Z demo_model).
  - reflexivity.
  - reflexivity.
  - simpl. lia.
Defined.

Lemma big_cohort_unsolved Solve :
  solver_sound Solve -> solve_cohort_v2 Solve "G" big_cohort = Ok None.
Proof.
  intros Hsound.
  destruct (solve_cohort_v2_returns Solve "G" big_cohort big_model eq_refl)
    as [[[rosters d]|] Hr]; [exfalso|exact Hr].
  destruct (solve_cohort_v2_inv _ _ _ _ _ Hsound Hr)
    as (V & positions & skills & _ & Hsk & HV & _ & _).
  change (mapM_result skill_score big_cohort) with (Ok [100050; 10]%Z) in Hsk.
  apply Ok_inj in Hsk. subst skills. change (length big_cohort) with 2%nat in HV.
  pose proof (sat_diff _ _ _ _ HV) as Hd.
  pose proof (sat_diff_domain _ _ _ _ HV) as Hdom.
  pose proof (sat_size _ _ _ _ HV 0%nat ltac:(unfold num_teams; lia)) as Hs0.
  pose proof (sat_one_team _ _ _ _ HV 0%nat ltac:(lia)) as H0.
  pose proof (sat_one_team _ _ _ _ HV 1%nat ltac:(lia)) as H1.
  destruct (sat_bool _ _ _ _ HV 0%nat 0%nat ltac:(lia) ltac:(unfold num_teams; lia)) as [E|E];
  destruct (sat_bool _ _ _ _ HV 1%nat 0%nat ltac:(lia) ltac:(unfold num_teams; lia)) as [F|F];
    unfold team_score, team_size in *; rewrite !eval_sum_expr in *;
    simpl in Hd, Hs0; rewrite ?E, ?F in *; lia.
Qed.

(** C7 as stated fails: the sum of the skill scores of [big_cohort] is
    above the upper bound of the declared domain; the split of its two
    players satisfies every constraint of the model, but its differential
    is outside the domain, and the call returns [(None, None)]. *)
Lemma diff_domain_counterexample :
  mapM_result skill_score big_cohort = Ok [100050; 10]%Z /\
  build_model big_cohort = Ok big_model /\
  In (diff_var, (0, 100000)%Z) (variables big_model) /\
  (100000 < Zsum [100050; 10])%Z /\
  forallb (holds big_split) (constraints big_model) = true /\
  check_model big_model big_split = false /\
  solve_cohort_v2 exhaustive_solve "G" big_cohort = Ok None.
Proof.
  split; [reflexivity|]. split; [reflexivity|].
  split; [simpl; repeat (first [left; reflexivity | right])|].
  split; [reflexivity|]. split; [reflexivity|]. split; reflexivity.
Qed.

(** ** Ghost injection *)

Lemma cell_reindex key cols (row : record) : cell key (reindex cols row) = cell key row.
Proof.
  unfold cell, reindex. rewrite lookup_union.
  destruct (row !! key) as [v|]; simpl.
  - now destruct (gset_to_gmap VNaN cols !! key).
  - rewrite lookup_gset_to_gmap. now case_guard.
Qed.

Lemma reindex_lookup_not_true key cols (row : record) :
  row !! key = None -> reindex cols row !! key <> Some (VBool true).
Proof.
  intros Hnone. unfold reindex. rewrite lookup_union, Hnone, lookup_gset_to_gmap.
  case_guard; simpl; discriminate.
Qed.

Lemma pd_concat_append (df : list record) (row : record) :
  pd_concat [df; [row]]
  = map (reindex (columns (df ++ [row]))) df ++ [reindex (columns (df ++ [row])) row].
Proof.
  unfold pd_concat. cbn [mjoin list_join]. rewrite app_nil_r.
  change (@fmap list _ _ _ ?f ?l) with (map f l). now rewrite map_app.
Qed.

Lemma cohort_rows_reindex cohort cols (df : list record) :
  cohort_rows cohort (map (reindex cols) df) = map (reindex cols) (cohort_rows cohort df).
Proof.
  unfold cohort_rows. induction df as [|row df IH]; [reflexivity|]. simpl.
  rewrite cell_reindex. destruct (py_eq (cell "category" row) (VStr cohort)); simpl;
    now rewrite IH.
Qed.

Lemma py_eq_VStr s1 s2 : py_eq (VStr s1) (VStr s2) = bool_decide (s1 = s2).
Proof. simpl. apply bool_decide_ext. split; congruence. Qed.

(** C5, as amended: when the frame has exactly one goalkeeper of
    category Group_2010_Plus, the conditioner appends exactly one row to
    it, the placeholder, with name GHOST_GK_PLACEHOLDER, position GK,
    category Group_2010_Plus and skill score 50, and without a true
    [is_placeholder] cell; the cells of the other rows are kept.  With any
    other count of these goalkeepers the frame is returned as it is.  The
    rows of any other cohort are never given a placeholder, whatever the
    number of their goalkeepers. *)
Theorem ghost_injection_policy (df : list record) :
  (gk_count "Group_2010_Plus" df = 1%nat ->
   exists placeholder : record,
     length (ghost_injection df) = S (length df) /\
     (forall key, map (cell key) (ghost_injection df)
                  = map (cell key) df ++ [cell key placeholder]) /\
     cell "name" placeholder = VStr "GHOST_GK_PLACEHOLDER" /\
     cell "position" placeholder = VStr "GK" /\
     cell "category" placeholder = VStr "Group_2010_Plus" /\
     cell "skill_score" placeholder = VInt 50 /\
     placeholder !! "is_placeholder" <> Some (VBool true)) /\
  (gk_count "Group_2010_Plus" df <> 1%nat -> ghost_injection df = df) /\
  (forall cohort, cohort <> "Group_2010_Plus" ->
     length (cohort_rows cohort (ghost_injection df)) = length (cohort_rows cohort df)).
Proof.
  unfold ghost_injection. fold (gk_count "Group_2010_Plus" df).
  destruct (gk_count "Group_2010_Plus" df =? 1)%nat eqn:Hc.
  - apply Nat.eqb_eq in Hc. rewrite pd_concat_append.
    set (cols := columns (df ++ [ghost])).
    split; [intros _|split; [intros Hne; contradiction|]].
    + exists (reindex cols ghost). split.
      { rewrite length_app, length_map. simpl. lia. }
      split.
      { intros key. rewrite map_app, map_map. simpl. f_equal.
        apply map_ext. intros row. apply cell_reindex. }
      rewrite !cell_reindex.
      repeat (split; [reflexivity|]).
      now apply reindex_lookup_not_true.
    + intros cohort Hcohort. unfold cohort_rows at 1.
      rewrite List.filter_app. fold (cohort_rows cohort (map (reindex cols) df)).
      rewrite cohort_rows_reindex, length_app, length_map. simpl.
      rewrite cell_reindex. change (cell "category" ghost) with (VStr "Group_2010_Plus").
      rewrite py_eq_VStr, bool_decide_eq_false_2 by congruence. simpl. lia.
  - apply Nat.eqb_neq in Hc.
    split; [intros Heq; contradiction|]. split; [reflexivity|reflexivity].
Qed.

Lemma ghost_injection_policy_witness :
  gk_count "Group_2010_Plus" df_2010 = 1%nat /\
  exists placeholder : record,
    length (ghost_injection df_2010) = S (length df_2010) /\
    (forall key, map (cell key) (ghost_injection df_2010)
                 = map (cell key) df_2010 ++ [cell key placeholder]) /\
    cell "name" placeholder = VStr "GHOST_GK_PLACEHOLDER" /\
    cell "position" placeholder = VStr "GK" /\
    cell "category" placeholder = VStr "Group_2010_Plus" /\
    cell "skill_score" placeholder = VInt 50 /\
    placeholder !! "is_placeholder" <> Some (VBool true).
Proof.
  split; [reflexivity|].
  apply (proj1 (ghost_injection_policy df_2010)). reflexivity.
Defined.

(** C5 as stated fails: the cohort Group_2008_2009 of [df_2008] has
    exactly one goalkeeper and nothing is injected; in [df_2010] the
    only goalkeeper of the cohort has skill 20, the mean skill of its
    goalkeepers, while the placeholder has skill 50, and it has no
    [is_placeholder] cell. *)
Lemma ghost_injection_counterexample :
  gk_count "Group_2008_2009" df_2008 = 1%nat /\
  ghost_injection df_2008 = df_2008 /\
  gk_count "Group_2010_Plus" df_2010 = 1%nat /\
  map (fun row => (cell "name" row, cell "position" row, cell "skill_score" row,
                   row !! "is_placeholder"))
      (ghost_injection df_2010)
  = [(VStr "k", VStr "GK", VInt 20, None);
     (VStr "d", VStr "DEF", VInt 25, None);
     (VStr "GHOST_GK_PLACEHOLDER", VStr "GK", VInt 50, None)].
Proof. repeat split; reflexivity. Qed.

(** ** The placeholder in the rosters *)

Lemma roster_member cohort_name n positions skills V (players : list record) p :
  satisfying n positions skills V -> n = length players -> (p < n)%nat ->
  exists t, (t < num_teams)%nat /\
    In (<["Assigned_Team" := VStr (team_label cohort_name t)]> (players !!! p))
       (roster_of cohort_name V players t).
Proof.
  intros HV -> Hp. pose proof (picks_exclusive _ _ _ _ p HV Hp) as Hex.
  destruct (picks V 0 p) eqn:H0.
  - exists 0%nat. split; [unfold num_teams; lia|].
    unfold roster_of. apply in_map_iff. exists p. split; [reflexivity|].
    apply filter_In. split; [apply in_seq; lia|assumption].
  - exists 1%nat. split; [unfold num_teams; lia|].
    unfold roster_of. apply in_map_iff. exists p. split; [reflexivity|].
    apply filter_In. split; [apply in_seq; lia|assumption].
Qed.

(** C6, as amended: when the placeholder is injected and
    [solve_cohort_v2] returns rosters for its cohort, one of the two
    rosters holds the placeholder's row; that row has the name
    GHOST_GK_PLACEHOLDER, by which it can be told apart, and no
    [is_placeholder] cell with value true. *)
Theorem placeholder_in_roster Solve (df : list record) rosters d :
  solver_sound Solve ->
  gk_count "Group_2010_Plus" df = 1%nat ->
  solve_cohort_v2 Solve "Group_2010_Plus"
    (cohort_rows "Group_2010_Plus" (ghost_injection df)) = Ok (Some (rosters, d)) ->
  exists t team row,
    In (t, team) rosters /\ In row team /\
    cell "name" row = VStr "GHOST_GK_PLACEHOLDER" /\
    row !! "is_placeholder" <> Some (VBool true).
Proof.
  intros Hsound Hc Hsolve.
  destruct (solve_cohort_v2_inv _ _ _ _ _ Hsound Hsolve)
    as (V & positions & skills & _ & _ & HV & -> & _).
  revert HV. unfold ghost_injection. fold (gk_count "Group_2010_Plus" df).
  rewrite Hc. cbn [Nat.eqb]. rewrite pd_concat_append.
  set (cols := columns (df ++ [ghost])).
  unfold cohort_rows at 1 2 3. rewrite List.filter_app.
  fold (cohort_rows "Group_2010_Plus" (map (reindex cols) df)).
  cbn [List.filter]. rewrite cell_reindex.
  change (py_eq (cell "category" ghost) (VStr "Group_2010_Plus")) with true. cbn iota.
  set (others := cohort_rows "Group_2010_Plus" (map (reindex cols) df)).
  intros HV.
  destruct (roster_member "Group_2010_Plus" _ _ _ _ (others ++ [reindex cols ghost])
              (length others) HV eq_refl) as (t & Ht & Hin).
  { rewrite length_app. simpl. lia. }
  assert (Hg : (others ++ [reindex cols ghost]) !!! length others = reindex cols ghost).
  { apply list_lookup_total_correct. rewrite lookup_app_r by lia.
    now rewrite Nat.sub_diag. }
  rewrite Hg in Hin.
  eexists t, _, _. split; [|split; [exact Hin|]].
  - unfold num_teams in Ht. destruct t as [|[|t]]; [now left|right; now left|lia].
  - split.
    + unfold cell. rewrite lookup_insert_ne by discriminate.
      fold (cell "name" (reindex cols ghost)). now rewrite cell_reindex.
    + rewrite lookup_insert_ne by discriminate.
      now apply reindex_lookup_not_true.
Qed.

Lemma placeholder_in_roster_witness :
  solver_sound exhaustive_solve /\
  gk_count "Group_2010_Plus" df_2010 = 1%nat /\
  solve_cohort_v2 exhaustive_solve "Group_2010_Plus"
    (cohort_rows "Group_2010_Plus" (ghost_injection df_2010))
  = Ok (Some (ghost_rosters, 5%Z)) /\
  exists t team row,
    In (t, team) ghost_rosters /\ In row team /\
    cell "name" row = VStr "GHOST_GK_PLACEHOLDER" /\
    row !! "is_placeholder" <> Some (VBool true).
Proof.
  split; [exact exhaustive_solve_sound|]. split; [reflexivity|]. split; [reflexivity|].
  apply (placeholder_in_roster exhaustive_solve df_2010 ghost_rosters 5%Z).
  - exact exhaustive_solve_sound.
  - reflexivity.
  - reflexivity.
Defined.

(** C6 as stated fails: the placeholder is injected and is in the final
    roster, and its row has no [is_placeholder] cell. *)
Lemma placeholder_flag_counterexample :
  match cohort_loop exhaustive_solve (ghost_injection df_two_cohorts) with
  | Ok (_, final_roster) =>
      map (fun row => (cell "name" row, cell "Assigned_Team" row,
                       row !! "is_placeholder")) final_roster
  | Raise _ => []
  end
  = [(VStr "c", VStr "Group_2008_2009_Team_2", None);
     (VStr "GHOST_GK_PLACEHOLDER", VStr "Group_2010_Plus_Team_1", None);
     (VStr "a", VStr "Group_2010_Plus_Team_2", None);
     (VStr "b", VStr "Group_2010_Plus_Team_2", None)].
Proof. reflexivity. Qed.

(** ** The cohort loop when a cohort has no solution *)

Lemma cohort_step_outcome Solve df cohort (s : list report * list record) :
  cohort_step Solve df cohort s
  = try o <- cohort_outcome Solve df cohort ;;
    Ok (s.1 ++ [(cohort, o)], s.2 ++ outcome_rows o).
Proof.
  unfold cohort_step, cohort_outcome.
  destruct (solve_cohort_v2 Solve cohort (cohort_rows cohort df)) as [[[result d]|]|e];
    cbn [bind]; [|now rewrite app_nil_r|reflexivity].
  destruct (bool_decide (result = [])); cbn [outcome_rows]; [now rewrite app_nil_r|reflexivity].
Qed.

Lemma loop_reports Solve df cohorts (s : list report * list record) reports final c o :
  for_each_result cohorts (cohort_step Solve df) s = Ok (reports, final) ->
  In (c, o) reports ->
  In (c, o) s.1 \/ (In c cohorts /\ cohort_outcome Solve df c = Ok o).
Proof.
  revert s. induction cohorts as [|c' cohorts IH]; intros s; simpl.
  - intros [= ->]. now left.
  - rewrite cohort_step_outcome.
    destruct (cohort_outcome Solve df c') as [o'|e] eqn:Ho; cbn [bind]; [|discriminate].
    intros Hloop Hin. destruct (IH _ Hloop Hin) as [Hs|[Hc Hs]].
    + cbn [fst] in Hs. apply in_app_or in Hs as [Hs|[[= <- <-]|[]]]; auto.
    + right. auto.
Qed.

Lemma loop_covers Solve df cohorts (s : list report * list record) reports final c :
  for_each_result cohorts (cohort_step Solve df) s = Ok (reports, final) ->
  In c cohorts -> exists o, In (c, o) reports.
Proof.
  assert (Hkeep : forall cohorts (s : list report * list record) reports final e,
            for_each_result cohorts (cohort_step Solve df) s = Ok (reports, final) ->
            In e s.1 -> In e reports).
  { clear. intros cohorts. induction cohorts as [|c' cohorts IH]; intros s reports final e; simpl.
    - now intros [= ->].
    - rewrite cohort_step_outcome.
      destruct (cohort_outcome Solve df c') as [o'|]; cbn [bind]; [|discriminate].
      intros Hloop He. apply (IH _ _ _ _ Hloop). cbn [fst]. apply in_or_app. now left. }
  revert s. induction cohorts as [|c' cohorts IH]; intros s; simpl; [intros _ []|].
  rewrite cohort_step_outcome.
  destruct (cohort_outcome Solve df c') as [o'|]; cbn [bind]; [|discriminate].
  intros Hloop [->|Hc].
  - exists o'. apply (Hkeep _ _ _ _ _ Hloop). cbn [fst]. apply in_or_app. right. now left.
  - now apply (IH _ Hloop).
Qed.

Lemma loop_without Solve df df' bad cohorts (s : list report * list record) :
  (forall c, c <> bad -> cohort_outcome Solve df' c = cohort_outcome Solve df c) ->
  cohort_outcome Solve df bad = Ok None ->
  for_each_result (filter (fun c => c <> bad) cohorts) (cohort_step Solve df')
    (filter (fun r : report => r.1 <> bad) s.1, s.2)
  = match for_each_result cohorts (cohort_step Solve df) s with
    | Ok (reports, final) => Ok (filter (fun r : report => r.1 <> bad) reports, final)
    | Raise e => Raise e
    end.
Proof.
  intros Hsame Hbad. revert s. induction cohorts as [|c cohorts IH]; intros s.
  - now destruct s.
  - cbn [for_each_result]. rewrite cohort_step_outcome.
    destruct (decide (c = bad)) as [->|Hne].
    + rewrite filter_cons_False by (intros Hn; now apply Hn).
      rewrite Hbad. cbn [bind]. rewrite <- IH. cbn [fst snd outcome_rows].
      rewrite filter_app, filter_cons_False by (intros Hn; now apply Hn).
      now rewrite filter_nil, !app_nil_r.
    + rewrite filter_cons_True by assumption. cbn [for_each_result].
      rewrite cohort_step_outcome, (Hsame c Hne).
      destruct (cohort_outcome Solve df c) as [o|e]; cbn [bind]; [|reflexivity].
      rewrite <- IH. cbn [fst snd].
      rewrite filter_app, filter_cons_True by assumption. now rewrite filter_nil.
Qed.

Lemma py_eq_VStr_inv v s : py_eq v (VStr s) = true -> v = VStr s.
Proof.
  destruct v; simpl; try discriminate. intros H. now apply bool_decide_eq_true in H.
Qed.

Lemma category_of_cell row c : category_of row = Ok c -> cell "category" row = VStr c.
Proof.
  unfold category_of. destruct (cell "category" row); try discriminate.
  now intros [= ->].
Qed.

Lemma cohort_rows_without cohort bad (df : list record) :
  cohort <> bad ->
  cohort_rows cohort (without_cohort bad df) = cohort_rows cohort df.
Proof.
  intros Hne. unfold cohort_rows, without_cohort.
  induction df as [|row df IH]; [reflexivity|]. simpl.
  destruct (py_eq (cell "category" row) (VStr bad)) eqn:Hbad; simpl.
  - apply py_eq_VStr_inv in Hbad. rewrite Hbad, py_eq_VStr.
    rewrite bool_decide_eq_false_2 by congruence. exact IH.
  - destruct (py_eq (cell "category" row) (VStr cohort)); now rewrite IH.
Qed.

Lemma categories_without bad (df : list record) categories :
  mapM_result category_of df = Ok categories ->
  mapM_result category_of (without_cohort bad df)
  = Ok (filter (fun c => c <> bad) categories).
Proof.
  unfold without_cohort. revert categories.
  induction df as [|row df IH]; intros categories; simpl.
  - now intros [= <-].
  - destruct (category_of row) as [c|] eqn:Hc; cbn [bind]; [|discriminate].
    destruct (mapM_result category_of df) as [cs|]; cbn [bind]; [|discriminate].
    intros [= <-]. rewrite (category_of_cell _ _ Hc), py_eq_VStr.
    destruct (decide (c = bad)) as [->|Hne].
    + rewrite bool_decide_eq_true_2 by reflexivity. simpl.
      rewrite filter_cons_False by (intros Hn; now apply Hn). now apply IH.
    + rewrite bool_decide_eq_false_2 by assumption. simpl.
      rewrite Hc. cbn [bind]. rewrite (IH cs eq_refl). cbn [bind].
      now rewrite filter_cons_True by assumption.
Qed.

Lemma StronglySorted_filter {A} (R : relation A) (P : A -> Prop)
    `{forall a, Decision (P a)} (l : list A) :
  StronglySorted R l -> StronglySorted R (filter P l).
Proof.
  induction 1 as [|a l Hl IH Ha]; [constructor|].
  rewrite filter_cons. case_decide; [|exact IH].
  constructor; [exact IH|].
  apply Forall_forall. intros b Hb. apply list_elem_of_filter in Hb as [_ Hb].
  rewrite Forall_forall in Ha. now apply Ha.
Qed.

Lemma cohorts_of_without bad (categories : list string) :
  cohorts_of (filter (fun c => c <> bad) categories)
  = filter (fun c => c <> bad) (cohorts_of categories).
Proof.
  unfold cohorts_of. apply (Sorted_unique String.le).
  - apply Sorted_merge_sort; apply _.
  - apply StronglySorted_Sorted, StronglySorted_filter.
    apply StronglySorted_merge_sort; apply _.
  - apply NoDup_Permutation.
    + rewrite merge_sort_Permutation. apply NoDup_remove_dups.
    + apply NoDup_filter. rewrite merge_sort_Permutation. apply NoDup_remove_dups.
    + intros c. rewrite merge_sort_Permutation, elem_of_remove_dups.
      rewrite !list_elem_of_filter, merge_sort_Permutation, elem_of_remove_dups.
      reflexivity.
Qed.

Lemma elem_of_cohorts_of c (categories : list string) :
  In c (cohorts_of categories) <-> In c categories.
Proof.
  unfold cohorts_of. rewrite <- !list_elem_of_In.
  now rewrite merge_sort_Permutation, elem_of_remove_dups.
Qed.

Lemma mapM_result_In {A B} (f : A -> result B) (l : list A) bs a b :
  mapM_result f l = Ok bs -> In a l -> f a = Ok b -> In b bs.
Proof.
  intros Hm Ha Hf. apply list_elem_of_In, list_elem_of_lookup in Ha as [i Hi].
  destruct (mapM_result_lookup _ _ _ _ _ Hm Hi) as (b' & Hb' & Hf').
  rewrite Hf in Hf'. apply Ok_inj in Hf'. subst b'.
  apply list_elem_of_In, list_elem_of_lookup. eauto.
Qed.

Lemma categories_without_raise bad (df : list record) e :
  mapM_result category_of df = Raise e ->
  mapM_result category_of (without_cohort bad df) = Raise e.
Proof.
  unfold without_cohort. induction df as [|row df IH]; simpl; [discriminate|].
  destruct (category_of row) as [c|e'] eqn:Hc; cbn [bind].
  - rewrite (category_of_cell _ _ Hc), py_eq_VStr.
    destruct (mapM_result category_of df) as [cs|e'']; cbn [bind]; [discriminate|].
    intros [= ->]. destruct (bool_decide (c = bad)); simpl; [now apply IH|].
    rewrite Hc. cbn [bind]. now rewrite IH.
  - intros [= ->].
    assert (Hkeep : py_eq (cell "category" row) (VStr bad) = false).
    { destruct (py_eq (cell "category" row) (VStr bad)) eqn:E; [|reflexivity].
      apply py_eq_VStr_inv in E. unfold category_of in Hc. rewrite E in Hc. discriminate. }
    rewrite Hkeep. simpl. now rewrite Hc.
Qed.

(** C9 (a cohort without solution does not stop the others): when
    [solve_cohort_v2] returns [(None, None)] for a cohort, the loop on
    the frame ends as the loop on the frame without the rows of that
    cohort does: with the same final roster and the same reports for the
    other cohorts.  When the loop ends, every cohort of the frame has its
    report, and the report of the failing cohort is the one without
    rosters. *)
Theorem cohort_loop_isolation Solve (df : list record) bad :
  solve_cohort_v2 Solve bad (cohort_rows bad df) = Ok None ->
  cohort_loop Solve (without_cohort bad df)
  = match cohort_loop Solve df with
    | Ok (reports, final_roster) =>
        Ok (filter (fun r : report => r.1 <> bad) reports, final_roster)
    | Raise e => Raise e
    end /\
  forall reports final_roster,
    cohort_loop Solve df = Ok (reports, final_roster) ->
    (forall row cohort, In row df -> category_of row = Ok cohort ->
       exists outcome, In (cohort, outcome) reports) /\
    (forall outcome, In (bad, outcome) reports -> outcome = None).
Proof.
  intros Hfail.
  assert (Hbad : cohort_outcome Solve df bad = Ok None).
  { unfold cohort_outcome. now rewrite Hfail. }
  unfold cohort_loop. split.
  - destruct (mapM_result category_of df) as [categories|e] eqn:Hcat; cbn [bind].
    + rewrite (categories_without _ _ _ Hcat). cbn [bind].
      rewrite cohorts_of_without.
      apply (loop_without Solve df (without_cohort bad df) bad _ ([], [])); [|exact Hbad].
      intros c Hne. unfold cohort_outcome. now rewrite cohort_rows_without.
    + now rewrite (categories_without_raise _ _ _ Hcat).
  - intros reports final_roster.
    destruct (mapM_result category_of df) as [categories|e] eqn:Hcat; cbn [bind];
      [|discriminate].
    intros Hloop. split.
    + intros row cohort Hrow Hc.
      apply (loop_covers _ _ _ _ _ _ _ Hloop).
      apply elem_of_cohorts_of. eapply mapM_result_In; eassumption.
    + intros outcome Hin.
      destruct (loop_reports _ _ _ _ _ _ _ _ Hloop Hin) as [[]|[_ H]].
      rewrite Hbad in H. now apply Ok_inj in H.
Qed.

Lemma cohort_loop_isolation_witness :
  solve_cohort_v2 exhaustive_solve "Group_2008_2009"
    (cohort_rows "Group_2008_2009" df_mixed) = Ok None /\
  cohort_loop exhaustive_solve df_mixed = Ok (mixed_reports, mixed_final_roster) /\
  cohort_loop exhaustive_solve (without_cohort "Group_2008_2009" df_mixed)
  = match cohort_loop exhaustive_solve df_mixed with
    | Ok (reports, final_roster) =>
        Ok (filter (fun r : report => r.1 <> "Group_2008_2009") reports, final_roster)
    | Raise e => Raise e
    end /\
  forall reports final_roster,
    cohort_loop exhaustive_solve df_mixed = Ok (reports, final_roster) ->
    (forall row cohort, In row df_mixed -> category_of row = Ok cohort ->
       exists outcome, In (cohort, outcome) reports) /\
    (forall outcome, In ("Group_2008_2009", outcome) reports -> outcome = None).
Proof.
  split; [reflexivity|]. split; [reflexivity|].
  apply (cohort_loop_isolation exhaustive_solve df_mixed "Group_2008_2009").
  reflexivity.
Defined.

(** * Further properties of the code *)

(** ** Letter case *)

Lemma lower_upper_ascii c : lower_ascii (upper_ascii c) = lower_ascii c.
Proof. destruct c as [[] [] [] [] [] [] [] []]; reflexivity. Qed.

Lemma lower_lower_ascii c : lower_ascii (lower_ascii c) = lower_ascii c.
Proof. destruct c as [[] [] [] [] [] [] [] []]; reflexivity. Qed.

Lemma upper_upper_ascii c : upper_ascii (upper_ascii c) = upper_ascii c.
Proof. destruct c as [[] [] [] [] [] [] [] []]; reflexivity. Qed.

Lemma lower_upper s : lower (upper s) = lower s.
Proof. induction s as [|c s IH]; simpl; [reflexivity|]. now rewrite lower_upper_ascii, IH. Qed.

Lemma lower_lower s : lower (lower s) = lower s.
Proof. induction s as [|c s IH]; simpl; [reflexivity|]. now rewrite lower_lower_ascii, IH. Qed.

Lemma upper_upper s : upper (upper s) = upper s.
Proof. induction s as [|c s IH]; simpl; [reflexivity|]. now rewrite upper_upper_ascii, IH. Qed.

(** ** Scoring *)

(** X1: the score does not depend on the letter case of the history
    text: an ASCII text, the same text in upper case and the same text in
    lower case have the same score.  (Outside ASCII the methods of Python
    change more than the letters a-z, so the text is taken in ASCII.) *)
Theorem calculate_skill_case_insensitive years_exp history_text :
  isascii history_text = true ->
  calculate_skill years_exp (upper history_text) = calculate_skill years_exp history_text /\
  calculate_skill years_exp (lower history_text) = calculate_skill years_exp history_text.
Proof. intros _. unfold calculate_skill. now rewrite lower_upper, lower_lower. Qed.

Lemma calculate_skill_case_insensitive_witness :
  isascii "U17 Premier" = true /\
  calculate_skill 4 "U17 PREMIER" = 58%Z /\
  calculate_skill 4 "u17 premier" = 58%Z /\
  calculate_skill 4 "U17 Premier" = 58%Z.
Proof.
  split; [reflexivity|].
  destruct (calculate_skill_case_insensitive 4 "U17 Premier" eq_refl) as [Hu Hl].
  change (upper "U17 Premier") with "U17 PREMIER" in Hu.
  change (lower "U17 Premier") with "u17 premier" in Hl.
  split; [|split; [|reflexivity]].
  - rewrite Hu. reflexivity.
  - rewrite Hl. reflexivity.
Defined.

(** ** Ages and cohorts *)

(** X2: [calculate_age] is the number of birthdays that have passed:
    the birth date moved by that number of years is not after today,
    and moved by one more year it is. *)
Theorem calculate_age_full_years today birth_date :
  date_le (add_years (calculate_age today birth_date) birth_date) today /\
  ~ date_le (add_years (calculate_age today birth_date + 1) birth_date) today.
Proof.
  unfold calculate_age, date_le, add_years, tuple_lt. simpl.
  destruct (Z.ltb_spec (month today) (month birth_date));
    destruct (Z.eqb_spec (month today) (month birth_date));
    destruct (Z.ltb_spec (day today) (day birth_date)); simpl; lia.
Qed.

(** X3: the age is negative exactly when the date of birth is after
    today; the code does not refuse such a date. *)
Theorem calculate_age_nonnegative today birth_date :
  (0 <= calculate_age today birth_date)%Z <-> date_le birth_date today.
Proof.
  unfold calculate_age, date_le, tuple_lt. simpl.
  destruct (Z.ltb_spec (month today) (month birth_date));
    destruct (Z.eqb_spec (month today) (month birth_date));
    destruct (Z.ltb_spec (day today) (day birth_date)); simpl; lia.
Qed.

Lemma assign_cohort_cases y :
  (y <= 2007 /\ assign_cohort y = "Group_2007_Earlier")%Z \/
  (2008 <= y <= 2009 /\ assign_cohort y = "Group_2008_2009")%Z \/
  (2010 <= y /\ assign_cohort y = "Group_2010_Plus")%Z.
Proof.
  unfold assign_cohort.
  destruct (Z.leb_spec y 2007); [left; split; [lia|reflexivity]|].
  destruct (Z.leb_spec 2008 y); [|lia].
  destruct (Z.leb_spec y 2009); simpl.
  - right. left. split; [lia|reflexivity].
  - right. right. split; [lia|reflexivity].
Qed.

(** X4: the names of the cohorts are ordered as the years are, so
    [sorted] lists the cohorts from the oldest players to the youngest. *)
Theorem assign_cohort_monotone y1 y2 :
  (y1 <= y2)%Z -> String.le (assign_cohort y1) (assign_cohort y2).
Proof.
  intros Hle.
  destruct (assign_cohort_cases y1) as [[H1 ->]|[[H1 ->]|[H1 ->]]];
    destruct (assign_cohort_cases y2) as [[H2 ->]|[[H2 ->]|[H2 ->]]];
    try lia; vm_compute; exact I.
Qed.

Lemma assign_cohort_monotone_witness :
  (2009 <= 2010)%Z /\ String.le (assign_cohort 2009) (assign_cohort 2010).
Proof. split; [lia|]. apply (assign_cohort_monotone 2009 2010). lia. Defined.

(** ** Positions of the sheet *)

Lemma py_eq_VStr_l s1 s2 : py_eq (VStr s1) (VStr s2) = bool_decide (s1 = s2).
Proof. simpl. apply bool_decide_ext. split; congruence. Qed.

Lemma replace_loop_VStr s :
  replace_loop (VStr s) = VStr (default s (dict_get position_cleanup s)).
Proof.
  unfold replace_loop, dict_get, position_cleanup.
  cbn [fold_left List.find fst snd].
  repeat (rewrite py_eq_VStr_l; case_bool_decide; simplify_eq; cbn [default fst snd];
          try reflexivity).
  rewrite !bool_decide_eq_false_2 by congruence. reflexivity.
Qed.

Lemma replace_loop_other v :
  (forall s, v <> VStr s) -> replace_loop v = v.
Proof.
  intros Hv. destruct v; try reflexivity. now destruct (Hv s).
Qed.

Lemma dict_get_category s category :
  dict_get position_cleanup s = Some category ->
  In category ["GK"; "DEF"; "MID"; "FWD"] /\
  dict_get position_cleanup category = (if bool_decide (category = "GK") then Some "GK" else None).
Proof.
  unfold dict_get, position_cleanup. cbn [List.find fst snd].
  repeat (case_bool_decide; [intros [= <-]; split; [simpl; tauto|reflexivity]|]).
  discriminate.
Qed.

(** X5: on a cell of the [position] column, the loop of assignments of
    lines 56-57 gives what line 54 gives: the category of the dict for a
    cell that is one of its keys, and the cell itself otherwise; run after
    line 54, the loop changes nothing. *)
Theorem replace_loop_redundant v :
  replace_loop v = map_fillna v /\ replace_loop (map_fillna v) = map_fillna v.
Proof.
  destruct v as [s| | | |]; try (split; reflexivity).
  rewrite replace_loop_VStr. unfold map_fillna.
  destruct (dict_get position_cleanup s) as [category|] eqn:Hs; cbn [default].
  - split; [reflexivity|]. rewrite replace_loop_VStr.
    destruct (dict_get_category _ _ Hs) as [_ ->].
    case_bool_decide; subst; reflexivity.
  - split; [reflexivity|]. now rewrite replace_loop_VStr, Hs.
Qed.

Lemma normalize_position_VStr s :
  normalize_position (VStr s) = VStr (upper (default s (dict_get position_cleanup s))).
Proof.
  unfold normalize_position.
  rewrite (proj2 (replace_loop_redundant (VStr s))). unfold map_fillna.
  now destruct (dict_get position_cleanup s).
Qed.

Lemma dict_get_upper s :
  upper s = s -> upper (default s (dict_get position_cleanup s)) = s.
Proof.
  intros Hs. unfold dict_get, position_cleanup. cbn [List.find fst snd].
  repeat (case_bool_decide; [subst s; first [reflexivity|discriminate]|]).
  exact Hs.
Qed.

(** X6: the normalisation of a position is idempotent: a position that
    is already normalised is left as it is. *)
Theorem normalize_position_idempotent v :
  normalize_position (normalize_position v) = normalize_position v.
Proof.
  destruct v as [s| | | |]; try reflexivity.
  rewrite !normalize_position_VStr. f_equal. apply dict_get_upper, upper_upper.
Qed.

(** ** The header of the sheet *)

Lemma dict_get_filter (P : string * string -> bool) d k :
  (forall v, In (k, v) d -> P (k, v) = true) ->
  dict_get (List.filter P d) k = dict_get d k.
Proof.
  unfold dict_get. induction d as [|[k' v'] d IH]; intros HP; [reflexivity|].
  cbn [List.filter List.find fst].
  destruct (decide (k' = k)) as [->|Hne].
  - rewrite (HP v') by now left. cbn [List.find fst].
    now rewrite bool_decide_eq_true_2.
  - destruct (P (k', v')); cbn [List.find fst];
      rewrite bool_decide_eq_false_2 by assumption;
      apply IH; intros v Hv; apply HP; now right.
Qed.

(** X7: after the cleaning of the header no column is left whose name
    is timestamp, contact email, phone number or cleaned email, or has
    column or unnamed in it, whatever the letter case of the name in the
    sheet; the names that are left are in lower case. *)
Theorem clean_columns_dropped columns c :
  In c (clean_columns columns) ->
  ~ In c ["timestamp"; "contact email"; "phone number"; "cleaned email"] /\
  contains "column" c = false /\
  contains "unnamed" c = false /\
  lower c = c.
Proof.
  unfold clean_columns.
  set (renamed := map _ columns). set (lowered := map lower renamed).
  set (first_drop :=
         List.filter (fun c => contains "column" c || contains "unnamed" c) lowered).
  set (kept := List.filter (fun c => negb (bool_decide (c ∈ first_drop))) lowered).
  intros Hc. apply filter_In in Hc as [Hkept Hpii].
  pose proof Hkept as Hk. apply filter_In in Hk as [Hlow Hfirst].
  split; [|split; [|split]].
  - intros Hin. apply negb_true_iff, bool_decide_eq_false in Hpii. apply Hpii.
    apply list_elem_of_In, filter_In. split; [exact Hin|].
    apply bool_decide_eq_true. now apply list_elem_of_In.
  - apply negb_true_iff, bool_decide_eq_false in Hfirst.
    destruct (contains "column" c) eqn:E; [|reflexivity]. exfalso. apply Hfirst.
    apply list_elem_of_In, filter_In. split; [exact Hlow|]. now rewrite E.
  - apply negb_true_iff, bool_decide_eq_false in Hfirst.
    destruct (contains "unnamed" c) eqn:E; [|reflexivity]. exfalso. apply Hfirst.
    apply list_elem_of_In, filter_In. split; [exact Hlow|]. rewrite E. apply orb_true_r.
  - apply in_map_iff in Hlow as (c' & <- & _). apply lower_lower.
Qed.

Lemma clean_columns_dropped_witness :
  In "name" (clean_columns ["Timestamp"; "Full Name"; "Phone Number"; "Unnamed: 7"]) /\
  ~ In "name" ["timestamp"; "contact email"; "phone number"; "cleaned email"] /\
  contains "column" "name" = false /\
  contains "unnamed" "name" = false /\
  lower "name" = "name".
Proof.
  split; [vm_compute; tauto|].
  apply (clean_columns_dropped ["Timestamp"; "Full Name"; "Phone Number"; "Unnamed: 7"]).
  vm_compute. tauto.
Defined.

(** X8: a column of the sheet that [column_mapping] renames is kept by
    the cleaning of the header, under its new name. *)
Theorem clean_columns_renamed columns k v :
  In (k, v) column_mapping -> In k columns -> In v (clean_columns columns).
Proof.
  intros Hkv Hk.
  assert (Hget : dict_get column_mapping k = Some v).
  { unfold column_mapping in Hkv. simpl in Hkv.
    repeat (destruct Hkv as [[= <- <-]|Hkv]; [reflexivity|]). destruct Hkv. }
  assert (Hfacts : lower v = v /\ contains "column" v = false /\
                   contains "unnamed" v = false /\
                   ~ In v ["timestamp"; "contact email"; "phone number"; "cleaned email"]).
  { unfold column_mapping in Hkv. simpl in Hkv.
    repeat (destruct Hkv as [[= <- <-]|Hkv];
            [repeat split; try reflexivity; simpl; intuition discriminate|]).
    destruct Hkv. }
  destruct Hfacts as (Hlow & Hcol & Hun & Hpii).
  unfold clean_columns.
  set (renaming := List.filter _ column_mapping).
  set (renamed := map _ columns). set (lowered := map lower renamed).
  set (first_drop :=
         List.filter (fun c => contains "column" c || contains "unnamed" c) lowered).
  set (kept := List.filter (fun c => negb (bool_decide (c ∈ first_drop))) lowered).
  assert (Hlowered : In v lowered).
  { rewrite <- Hlow. apply in_map. apply in_map_iff. exists k. split; [|exact Hk].
    unfold renaming. rewrite dict_get_filter, Hget; [reflexivity|].
    intros v' _. apply bool_decide_eq_true. now apply list_elem_of_In. }
  assert (Hkept : In v kept).
  { apply filter_In. split; [exact Hlowered|]. cbv beta.
    apply negb_true_iff. apply bool_decide_eq_false_2. intros Hin.
    unfold first_drop in Hin. rewrite list_elem_of_In, filter_In in Hin.
    destruct Hin as [_ Hin]. cbv beta in Hin. rewrite Hcol, Hun in Hin. discriminate. }
  apply filter_In. split; [exact Hkept|]. cbv beta.
  apply negb_true_iff. apply bool_decide_eq_false_2. intros Hin.
  rewrite list_elem_of_In, filter_In in Hin. destruct Hin as [Hin _]. now apply Hpii.
Qed.

Lemma clean_columns_renamed_witness :
  In ("Date of Birth", "dob") column_mapping /\
  In "Date of Birth" ["Timestamp"; "Date of Birth"] /\
  In "dob" (clean_columns ["Timestamp"; "Date of Birth"]).
Proof.
  split; [simpl; tauto|]. split; [simpl; tauto|].
  apply (clean_columns_renamed ["Timestamp"; "Date of Birth"] "Date of Birth" "dob").
  - simpl. tauto.
  - simpl. tauto.
Defined.

(** ** Exceptions of [solve_cohort_v2] *)

Lemma mapM_getitem_missing key (players : list record) :
  (exists p, In p players /\ p !! key = None) ->
  mapM_result (getitem key) players = Raise (KeyError key).
Proof.
  induction players as [|row players IH]; intros (p & Hin & Hp); [contradiction|].
  cbn [mapM_result]. unfold getitem at 1.
  destruct (row !! key) as [v|] eqn:Hrow; cbn [bind]; [|reflexivity].
  destruct Hin as [->|Hin]; [congruence|].
  rewrite IH by eauto. reflexivity.
Qed.

(** X9: when a row of the cohort has no [position] cell,
    [solve_cohort_v2] raises [KeyError('position')], before it reads a
    skill score and before the solver is called. *)
Theorem solve_cohort_v2_missing_position Solve cohort_name (players : list record) :
  (exists p, In p players /\ p !! "position" = None) ->
  solve_cohort_v2 Solve cohort_name players = Raise (KeyError "position").
Proof.
  intros Hmissing. unfold solve_cohort_v2, build_model.
  rewrite (mapM_getitem_missing _ _ Hmissing). reflexivity.
Qed.

Lemma solve_cohort_v2_missing_position_witness :
  (exists p, In p [player "a" "GK" 7 "G"; {[ "name" := VStr "b" ]}] /\
             p !! "position" = None) /\
  solve_cohort_v2 exhaustive_solve "G" [player "a" "GK" 7 "G"; {[ "name" := VStr "b" ]}]
  = Raise (KeyError "position").
Proof.
  assert (H : exists p, In p [player "a" "GK" 7 "G"; {[ "name" := VStr "b" ]}] /\
                        p !! "position" = None).
  { exists {[ "name" := VStr "b" ]}. split; [right; now left|reflexivity]. }
  split; [exact H|].
  apply (solve_cohort_v2_missing_position exhaustive_solve "G" _ H).
Defined.

Lemma mapM_result_total {A B} (f : A -> result B) (l : list A) :
  (forall a, In a l -> exists b, f a = Ok b) -> exists bs, mapM_result f l = Ok bs.
Proof.
  induction l as [|a l IH]; intros Hf; [now exists []|].
  destruct (Hf a (or_introl eq_refl)) as [b Hb].
  destruct IH as [bs Hbs]; [intros a' Ha'; apply Hf; now right|].
  exists (b :: bs). cbn [mapM_result]. now rewrite Hb, Hbs.
Qed.

(** X10: when every row of the cohort has a [position] cell and a
    [skill_score] cell that is an int of 64 bits or a bool,
    [solve_cohort_v2] raises nothing, whatever the status and the values
    that the solver gives. *)
Theorem solve_cohort_v2_no_exception Solve cohort_name (players : list record) :
  (forall p, In p players ->
     is_Some (p !! "position") /\
     ((exists z, p !! "skill_score" = Some (VInt z) /\ int64 z = true) \/
      (exists b, p !! "skill_score" = Some (VBool b)))) ->
  exists r, solve_cohort_v2 Solve cohort_name players = Ok r.
Proof.
  intros Hrows.
  destruct (mapM_result_total (getitem "position") players) as [positions Hpos].
  { intros p Hp. destruct (Hrows p Hp) as [[v Hv] _]. exists v. unfold getitem. now rewrite Hv. }
  destruct (mapM_result_total skill_score players) as [skills Hsk].
  { intros p Hp. destruct (Hrows p Hp) as [_ [(z & Hz & Hfit)|[b Hb]]].
    - exists z. unfold skill_score, getitem. rewrite Hz. cbn [bind]. now rewrite Hfit.
    - exists (Z.b2z b). unfold skill_score, getitem. now rewrite Hb. }
  destruct (build_model_ok _ _ _ Hpos Hsk) as [m Hm].
  exact (solve_cohort_v2_returns Solve cohort_name _ _ Hm).
Qed.

Lemma solve_cohort_v2_no_exception_witness :
  (forall p, In p demo_cohort ->
     is_Some (p !! "position") /\
     ((exists z, p !! "skill_score" = Some (VInt z) /\ int64 z = true) \/
      (exists b, p !! "skill_score" = Some (VBool b)))) /\
  exists r, solve_cohort_v2 (reporting UNKNOWN) "G" demo_cohort = Ok r.
Proof.
  assert (H : forall p, In p demo_cohort ->
     is_Some (p !! "position") /\
     ((exists z, p !! "skill_score" = Some (VInt z) /\ int64 z = true) \/
      (exists b, p !! "skill_score" = Some (VBool b)))).
  { intros p [<-|[<-|[<-|[]]]];
      (split; [eexists; reflexivity|left; eexists; split; reflexivity]). }
  split; [exact H|].
  apply (solve_cohort_v2_no_exception (reporting UNKNOWN) "G" demo_cohort H).
Defined.

(** ** The returned skill difference *)

Lemma score_gap_bound_in (s : nat -> Z) V (l : list nat) :
  (forall p t, In p l -> (t < num_teams)%nat ->
     V (x_var p t) = 0%Z \/ V (x_var p t) = 1%Z) ->
  (Z.abs (Zsum (map (fun p => s p * V (x_var p 0))%Z l)
          - Zsum (map (fun p => s p * V (x_var p 1))%Z l))
   <= Zsum (map (fun p => Z.abs (s p)) l))%Z.
Proof.
  intros Hb. induction l as [|p l IH]; simpl; [lia|].
  assert (IH' := IH (fun q t Hq => Hb q t (or_intror Hq))).
  destruct (Hb p 0%nat (or_introl eq_refl) ltac:(unfold num_teams; lia)) as [-> | ->],
           (Hb p 1%nat (or_introl eq_refl) ltac:(unfold num_teams; lia)) as [-> | ->]; lia.
Qed.

(** X11: the skill difference that [solve_cohort_v2] returns is between
    0 and 100000, and it is at most the sum of the absolute values of
    the skill scores of the cohort. *)
Theorem solve_cohort_v2_skill_diff_range Solve cohort_name players rosters d :
  solver_sound Solve ->
  solve_cohort_v2 Solve cohort_name players = Ok (Some (rosters, d)) ->
  exists skills,
    mapM_result skill_score players = Ok skills /\
    (0 <= d <= 100000)%Z /\
    (d <= Zsum (map Z.abs skills))%Z.
Proof.
  intros Hsound Hsolve.
  destruct (solve_cohort_v2_inv _ _ _ _ _ Hsound Hsolve)
    as (V & positions & skills & _ & Hsk & HV & _ & ->).
  exists skills. split; [exact Hsk|]. split; [apply (sat_diff_domain _ _ _ _ HV)|].
  rewrite (sat_diff _ _ _ _ HV). unfold team_score.
  rewrite !eval_sum_expr, !map_map. cbn [eval].
  etransitivity.
  - apply (score_gap_bound_in (fun p => skills !!! p) V).
    intros p t Hp Ht. apply in_seq in Hp. apply (sat_bool _ _ _ _ HV); [lia|exact Ht].
  - rewrite <- (map_map (fun p => skills !!! p) Z.abs).
    rewrite <- (mapM_result_length _ _ _ Hsk), map_lookup_total_seq. lia.
Qed.

Lemma solve_cohort_v2_skill_diff_range_witness :
  solver_sound exhaustive_solve /\
  solve_cohort_v2 exhaustive_solve "G" demo_cohort = Ok (Some (demo_rosters, 15%Z)) /\
  exists skills,
    mapM_result skill_score demo_cohort = Ok skills /\
    (0 <= 15 <= 100000)%Z /\
    (15 <= Zsum (map Z.abs skills))%Z.
Proof.
  split; [exact exhaustive_solve_sound|]. split; [reflexivity|].
  apply (solve_cohort_v2_skill_diff_range exhaustive_solve "G" demo_cohort demo_rosters 15%Z).
  - exact exhaustive_solve_sound.
  - reflexivity.
Defined.

(** ** The extraction loop, whatever the values *)

Lemma StronglySorted_lt_seq a n : StronglySorted lt (seq a n).
Proof.
  revert a. induction n as [|n IH]; intros a; simpl; constructor; [apply IH|].
  apply Forall_forall. intros p Hp. apply list_elem_of_In, in_seq in Hp. lia.
Qed.

Lemma StronglySorted_List_filter {A} (R : A -> A -> Prop) (f : A -> bool) (l : list A) :
  StronglySorted R l -> StronglySorted R (List.filter f l).
Proof.
  induction 1 as [|a l Hl IH Ha]; [constructor|]. simpl.
  destruct (f a); [|exact IH]. constructor; [exact IH|].
  rewrite Forall_forall in Ha |- *. intros b Hb.
  apply Ha. apply list_elem_of_In. apply list_elem_of_In in Hb.
  now apply filter_In in Hb.
Qed.

Lemma relabel_length cohort_name V (idx : list nat) (pl : list record) :
  length (relabel cohort_name V pl idx) = length pl.
Proof.
  revert pl. induction idx as [|p idx IH]; intros pl; [reflexivity|].
  change (relabel cohort_name V pl (p :: idx))
    with (relabel cohort_name V (alter (labelled cohort_name V p) p pl) idx).
  now rewrite IH, length_alter.
Qed.

(** X12: for any values of the variables, the loop of lines 164-171
    leaves the number of players as it is and fills the rosters of the
    teams 0 and 1, in this order: the roster of a team holds the players
    whose variable for that team has the value 1, each once, in the order
    of the list of players. *)
Theorem extract_rosters cohort_name V (players : list record) :
  exists idx0 idx1 : list nat,
    (extract cohort_name V players).2 = [(0, idx0); (1, idx1)]%nat /\
    length (extract cohort_name V players).1 = length players /\
    (forall p, In p idx0 <-> (p < length players)%nat /\ V (x_var p 0) = 1%Z) /\
    (forall p, In p idx1 <-> (p < length players)%nat /\ V (x_var p 1) = 1%Z) /\
    StronglySorted lt idx0 /\ StronglySorted lt idx1.
Proof.
  rewrite extract_spec. cbn [fst snd]. eexists _, _. split; [reflexivity|].
  split; [apply relabel_length|].
  assert (Hmem : forall t p,
            In p (List.filter (picks V t) (seq 0 (length players)))
            <-> (p < length players)%nat /\ V (x_var p t) = 1%Z).
  { intros t p. rewrite filter_In, in_seq. unfold picks. rewrite Z.eqb_eq. lia. }
  split; [apply Hmem|]. split; [apply Hmem|].
  split; apply StronglySorted_List_filter, StronglySorted_lt_seq.
Qed.

(** ** The placeholder and the goalkeeper *)

Lemma gk_count_reindex cohort cols (df : list record) :
  gk_count cohort (map (reindex cols) df) = gk_count cohort df.
Proof.
  unfold gk_count. rewrite filter_map_length. f_equal.
  apply filter_ext. intros row. now rewrite !cell_reindex.
Qed.

Lemma gk_count_app cohort (df1 df2 : list record) :
  gk_count cohort (df1 ++ df2) = (gk_count cohort df1 + gk_count cohort df2)%nat.
Proof. unfold gk_count. now rewrite List.filter_app, length_app. Qed.

Lemma gk_count_injected (df : list record) :
  gk_count "Group_2010_Plus" df = 1%nat ->
  gk_count "Group_2010_Plus" (ghost_injection df) = 2%nat.
Proof.
  intros Hc. unfold ghost_injection. fold (gk_count "Group_2010_Plus" df).
  rewrite Hc. cbn [Nat.eqb]. rewrite pd_concat_append, gk_count_app, gk_count_reindex, Hc.
  unfold gk_count. cbn [List.filter]. rewrite !cell_reindex. reflexivity.
Qed.

(** X13: the conditioner is idempotent: on a frame that it has returned
    it injects nothing more. *)
Theorem ghost_injection_idempotent (df : list record) :
  ghost_injection (ghost_injection df) = ghost_injection df.
Proof.
  destruct (Nat.eq_dec (gk_count "Group_2010_Plus" df) 1) as [Hc|Hc].
  - pose proof (gk_count_injected df Hc) as H2.
    unfold ghost_injection at 1. fold (gk_count "Group_2010_Plus" (ghost_injection df)).
    now rewrite H2.
  - assert (E : ghost_injection df = df).
    { unfold ghost_injection. fold (gk_count "Group_2010_Plus" df).
      now rewrite (proj2 (Nat.eqb_neq _ _) Hc). }
    now rewrite !E.
Qed.

Lemma count_position_cohort_rows cohort (df : list record) :
  count_position (VStr "GK") (cohort_rows cohort df) = gk_count cohort df.
Proof.
  unfold count_position, cohort_rows, gk_count. f_equal.
  induction df as [|row df IH]; [reflexivity|]. simpl.
  destruct (py_eq (cell "category" row) (VStr cohort)); simpl;
    destruct (py_eq (cell "position" row) (VStr "GK")); simpl; now rewrite IH.
Qed.

(** X14: when the placeholder is injected and [solve_cohort_v2] returns
    rosters for its cohort, each of the two teams has exactly one
    goalkeeper: the placeholder and the goalkeeper of the cohort are in
    different teams. *)
Theorem placeholder_splits_goalkeepers Solve (df : list record) rosters d t team :
  solver_sound Solve ->
  gk_count "Group_2010_Plus" df = 1%nat ->
  solve_cohort_v2 Solve "Group_2010_Plus"
    (cohort_rows "Group_2010_Plus" (ghost_injection df)) = Ok (Some (rosters, d)) ->
  In (t, team) rosters ->
  count_position (VStr "GK") team = 1%nat.
Proof.
  intros Hsound Hc Hsolve Hin.
  destruct (solve_cohort_v2_inv _ _ _ _ _ Hsound Hsolve)
    as (V & positions & skills & Hpos & _ & HV & -> & _).
  pose proof (mapM_result_length _ _ _ Hpos) as Hlen.
  assert (Htwo : length (pos_indices_of positions (VStr "GK")) = 2%nat).
  { rewrite <- (count_position_players _ _ _ Hpos), count_position_cohort_rows.
    now apply gk_count_injected. }
  assert (Hb : forall t', (t' < num_teams)%nat ->
            length (List.filter (picks V t') (pos_indices_of positions (VStr "GK"))) = 1%nat).
  { intros t' Ht'. pose proof (position_balance _ _ _ _ (VStr "GK") _ HV Hlen Ht') as H.
    rewrite Htwo in H. change (2 / 2)%nat with 1%nat in H.
    change ((2 + 1) / 2)%nat with 1%nat in H. lia. }
  destruct Hin as [[= <- <-]|[[= <- <-]|[]]];
    rewrite (count_position_roster _ _ _ _ _ _ Hpos); apply Hb; unfold num_teams; lia.
Qed.

Lemma placeholder_splits_goalkeepers_witness :
  solver_sound exhaustive_solve /\
  gk_count "Group_2010_Plus" df_2010 = 1%nat /\
  solve_cohort_v2 exhaustive_solve "Group_2010_Plus"
    (cohort_rows "Group_2010_Plus" (ghost_injection df_2010))
  = Ok (Some ([(0%nat, ghost_team_0); (1%nat, ghost_team_1)], 5%Z)) /\
  In (0%nat, ghost_team_0) [(0%nat, ghost_team_0); (1%nat, ghost_team_1)] /\
  count_position (VStr "GK") ghost_team_0 = 1%nat.
Proof.
  split; [exact exhaustive_solve_sound|]. split; [reflexivity|]. split; [reflexivity|].
  split; [now left|].
  apply (placeholder_splits_goalkeepers exhaustive_solve df_2010
           [(0%nat, ghost_team_0); (1%nat, ghost_team_1)] 5%Z 0%nat ghost_team_0).
  - exact exhaustive_solve_sound.
  - reflexivity.
  - reflexivity.
  - now left.
Defined.

(** ** The reports and the final roster of the loop *)

Lemma loop_shape Solve df cohorts (s : list report * list record) reports final :
  for_each_result cohorts (cohort_step Solve df) s = Ok (reports, final) ->
  exists new : list report,
    reports = s.1 ++ new /\
    map fst new = cohorts /\
    final = s.2 ++ flat_map (fun r : report => outcome_rows r.2) new.
Proof.
  revert s. induction cohorts as [|c cohorts IH]; intros s; cbn [for_each_result].
  - intros [= ->]. exists []. cbn [fst snd]. now rewrite !app_nil_r.
  - rewrite cohort_step_outcome.
    destruct (cohort_outcome Solve df c) as [o|e]; cbn [bind]; [|discriminate].
    intros Hloop. destruct (IH _ Hloop) as (new & -> & Hfst & ->). cbn [fst snd].
    exists ((c, o) :: new). split; [now rewrite <- app_assoc|].
    split; [simpl; now rewrite Hfst|]. simpl. now rewrite <- app_assoc.
Qed.

(** X15: when the loop runs to its end, it has reported each cohort of
    the frame once, in the order of their names, and the final roster is
    made of the rosters that it has reported, in that order. *)
Theorem cohort_loop_reports Solve (df : list record) reports final_roster :
  cohort_loop Solve df = Ok (reports, final_roster) ->
  Sorted String.le (map fst reports) /\
  NoDup (map fst reports) /\
  (forall cohort, In cohort (map fst reports)
     <-> exists row, In row df /\ category_of row = Ok cohort) /\
  final_roster = flat_map (fun r : report => outcome_rows r.2) reports.
Proof.
  unfold cohort_loop.
  destruct (mapM_result category_of df) as [categories|] eqn:Hcat; cbn [bind];
    [|discriminate].
  intros Hloop. destruct (loop_shape _ _ _ _ _ _ Hloop) as (new & -> & Hfst & ->).
  cbn [fst snd app]. rewrite Hfst. unfold cohorts_of.
  split; [apply Sorted_merge_sort; apply _|].
  split; [rewrite merge_sort_Permutation; apply NoDup_remove_dups|].
  split; [|reflexivity].
  intros cohort. fold (cohorts_of categories). rewrite elem_of_cohorts_of. split.
  - intros Hin. apply list_elem_of_In, list_elem_of_lookup in Hin as [i Hi].
    pose proof (mapM_result_length _ _ _ Hcat) as Hlen.
    assert (Hlt : (i < length df)%nat).
    { rewrite <- Hlen. now apply lookup_lt_Some in Hi. }
    destruct (lookup_lt_is_Some_2 df i Hlt) as [row Hrow].
    destruct (mapM_result_lookup _ _ _ _ _ Hcat Hrow) as (c & Hc & Hf).
    rewrite Hi in Hc. injection Hc as <-.
    exists row. split; [|exact Hf]. apply list_elem_of_In, list_elem_of_lookup. eauto.
  - intros (row & Hrow & Hc). eapply mapM_result_In; eassumption.
Qed.

Lemma cohort_loop_reports_witness :
  cohort_loop exhaustive_solve df_mixed = Ok (mixed_reports, mixed_final_roster) /\
  Sorted String.le (map fst mixed_reports) /\
  NoDup (map fst mixed_reports) /\
  (forall cohort, In cohort (map fst mixed_reports)
     <-> exists row, In row df_mixed /\ category_of row = Ok cohort) /\
  mixed_final_roster = flat_map (fun r : report => outcome_rows r.2) mixed_reports.
Proof.
  split; [reflexivity|].
  apply (cohort_loop_reports exhaustive_solve df_mixed mixed_reports mixed_final_roster).
  reflexivity.
Defined.

Lemma cohort_rows_category cohort (df : list record) row :
  In row (cohort_rows cohort df) -> cell "category" row = VStr cohort.
Proof.
  unfold cohort_rows. intros [_ H]%filter_In. now apply py_eq_VStr_inv.
Qed.

(** X16: every row of the final roster carries the label of a team of
    its own cohort: its [Assigned_Team] cell is the name in its
    [category] cell followed by [_Team_1] or [_Team_2]. *)
Theorem final_roster_labels Solve (df : list record) reports final_roster row :
  solver_sound Solve ->
  cohort_loop Solve df = Ok (reports, final_roster) ->
  In row final_roster ->
  exists cohort t,
    (t < num_teams)%nat /\
    cell "category" row = VStr cohort /\
    cell "Assigned_Team" row = VStr (team_label cohort t).
Proof.
  intros Hsound Hloop Hrow.
  assert (Hfinal : exists cohort o, cohort_outcome Solve df cohort = Ok o /\
                                    In row (outcome_rows o)).
  { revert Hloop. unfold cohort_loop.
    destruct (mapM_result category_of df) as [categories|]; cbn [bind]; [|discriminate].
    intros Hloop. destruct (loop_shape _ _ _ _ _ _ Hloop) as (new & Hr & _ & Hf).
    cbn [fst snd app] in Hr, Hf. subst reports final_roster.
    apply in_flat_map in Hrow as ([c o] & Hin & Hrow).
    destruct (loop_reports _ _ _ _ _ _ _ _ Hloop Hin) as [[]|[_ Ho]]. eauto. }
  destruct Hfinal as (cohort & o & Ho & Hin). unfold cohort_outcome in Ho.
  destruct (solve_cohort_v2 Solve cohort (cohort_rows cohort df))
    as [[[result d]|]|e] eqn:Hsolve; cbn [bind] in Ho; try discriminate;
    apply Ok_inj in Ho; subst o; [|destruct Hin].
  destruct (bool_decide (result = [])); [destruct Hin|]. cbn [outcome_rows] in Hin.
  destruct (solve_cohort_v2_inv _ _ _ _ _ Hsound Hsolve)
    as (V & positions & skills & _ & _ & _ & -> & _).
  exists cohort.
  assert (Hroster : forall t, In row (roster_of cohort V (cohort_rows cohort df) t) ->
            cell "category" row = VStr cohort /\
            cell "Assigned_Team" row = VStr (team_label cohort t)).
  { intros t Ht. unfold roster_of in Ht. apply in_map_iff in Ht as (p & <- & Hp).
    apply filter_In in Hp as [Hp _]. apply in_seq in Hp. unfold cell.
    rewrite lookup_insert_ne by discriminate. rewrite lookup_insert_eq. split; [|reflexivity].
    apply (cohort_rows_category cohort df).
    apply list_elem_of_In, list_elem_of_lookup. exists p.
    apply list_lookup_lookup_total_lt. lia. }
  cbn [flat_map snd] in Hin. rewrite app_nil_r in Hin.
  apply in_app_or in Hin as [Hin|Hin].
  - exists 0%nat. split; [unfold num_teams; lia|]. now apply Hroster.
  - exists 1%nat. split; [unfold num_teams; lia|]. now apply Hroster.
Qed.

Lemma final_roster_labels_witness :
  solver_sound exhaustive_solve /\
  cohort_loop exhaustive_solve df_mixed = Ok (mixed_reports, mixed_final_roster) /\
  In (<["Assigned_Team" := VStr "Group_2010_Plus_Team_1"]>
        (player "d" "DEF" 20 "Group_2010_Plus")) mixed_final_roster /\
  exists cohort t,
    (t < num_teams)%nat /\
    cell "category" (<["Assigned_Team" := VStr "Group_2010_Plus_Team_1"]>
                       (player "d" "DEF" 20 "Group_2010_Plus")) = VStr cohort /\
    cell "Assigned_Team" (<["Assigned_Team" := VStr "Group_2010_Plus_Team_1"]>
                            (player "d" "DEF" 20 "Group_2010_Plus"))
    = VStr (team_label cohort t).
Proof.
  split; [exact exhaustive_solve_sound|]. split; [reflexivity|]. split; [now left|].
  apply (final_roster_labels exhaustive_solve df_mixed mixed_reports mixed_final_roster).
  - exact exhaustive_solve_sound.
  - reflexivity.
  - now left.
Defined.

(** ** Team labels *)

Lemma string_length_app (s1 s2 : string) :
  String.length (s1 +:+ s2) = (String.length s1 + String.length s2)%nat.
Proof. induction s1 as [|c s1 IH]; simpl; [reflexivity|]. now rewrite IH. Qed.

Lemma string_app_suffix_inj (x y s s' : string) :
  String.length s = String.length s' ->
  x +:+ s = y +:+ s' -> x = y /\ s = s'.
Proof.
  intros Hlen. revert y. induction x as [|c x IH]; intros [|c' y] Heq.
  - now split.
  - exfalso. apply (f_equal String.length) in Heq.
    rewrite !string_length_app in Heq. simpl in Heq. lia.
  - exfalso. apply (f_equal String.length) in Heq.
    rewrite !string_length_app in Heq. simpl in Heq. lia.
  - change (String c (x +:+ s) = String c' (y +:+ s')) in Heq.
    injection Heq as -> Heq. destruct (IH _ Heq) as [-> ->]. now split.
Qed.

(** X17: the team labels are unique over the cohorts: two labels are
    equal only if they are for the same cohort and the same team. *)
Theorem team_label_inj cohort1 cohort2 t1 t2 :
  (t1 < num_teams)%nat -> (t2 < num_teams)%nat ->
  team_label cohort1 t1 = team_label cohort2 t2 ->
  cohort1 = cohort2 /\ t1 = t2.
Proof.
  unfold num_teams, team_label. intros H1 H2 Heq.
  destruct t1 as [|[|t1]]; [| |lia]; destruct t2 as [|[|t2]]; [| |lia| | |lia];
    apply string_app_suffix_inj in Heq as [-> Hs]; try reflexivity;
    try (split; [reflexivity|]); try reflexivity; discriminate Hs.
Qed.

Lemma team_label_inj_witness :
  (0 < num_teams)%nat /\ (0 < num_teams)%nat /\
  team_label "G" 0 = team_label "G" 0 /\
  "G" = "G" /\ 0%nat = 0%nat.
Proof.
  split; [unfold num_teams; lia|]. split; [unfold num_teams; lia|].
  split; [reflexivity|].
  apply (team_label_inj "G" "G" 0 0); [unfold num_teams; lia..|reflexivity].
Defined.

(** ** Every cohort has a balanced split *)

Lemma index_of_app_l p (l1 l2 : list nat) :
  p ∈ l1 -> index_of p (l1 ++ l2) = index_of p l1.
Proof.
  induction l1 as [|q l1 IH]; intros Hin; [now apply elem_of_nil in Hin|]. simpl.
  destruct (Nat.eqb_spec p q) as [->|Hne]; [reflexivity|].
  apply elem_of_cons in Hin as [->|Hin]; [contradiction|]. now rewrite IH.
Qed.

Lemma index_of_app_r p (l1 l2 : list nat) :
  p ∉ l1 -> index_of p (l1 ++ l2) = (length l1 + index_of p l2)%nat.
Proof.
  induction l1 as [|q l1 IH]; intros Hin; [reflexivity|]. simpl.
  destruct (Nat.eqb_spec p q) as [->|Hne]; [exfalso; apply Hin; left|].
  rewrite IH; [reflexivity|]. intros H. apply Hin. now right.
Qed.

Lemma map_index_of (l : list nat) :
  NoDup l -> map (fun p => index_of p l) l = seq 0 (length l).
Proof.
  induction 1 as [|q l Hq Hl IH]; [reflexivity|]. simpl.
  rewrite Nat.eqb_refl. f_equal. rewrite <- seq_shift, <- IH, map_map.
  apply map_ext_in. intros p Hp. apply list_elem_of_In in Hp.
  destruct (Nat.eqb_spec p q) as [->|Hne]; [contradiction|reflexivity].
Qed.

Lemma map_index_of_block (l1 l2 l3 : list nat) :
  NoDup (l1 ++ l2 ++ l3) ->
  map (fun p => index_of p (l1 ++ l2 ++ l3)) l2 = seq (length l1) (length l2).
Proof.
  intros Hnd. apply NoDup_app in Hnd as (_ & Hdisj & Hnd).
  apply NoDup_app in Hnd as (Hnd2 & _ & _).
  rewrite <- (Nat.add_0_r (length l1)), <- fmap_add_seq, <- (map_index_of l2 Hnd2).
  change (@fmap list _ _ _ ?f ?l) with (map f l). rewrite map_map.
  apply map_ext_in. intros p Hp. apply list_elem_of_In in Hp.
  rewrite index_of_app_r.
  - now rewrite index_of_app_l.
  - intros Hp1. apply (Hdisj p Hp1). apply elem_of_app. now left.
Qed.

Lemma parity_count a k :
  (Nat.even a = true ->
     length (List.filter Nat.even (seq a k)) = ((k + 1) / 2)%nat /\
     length (List.filter Nat.odd (seq a k)) = (k / 2)%nat) /\
  (Nat.even a = false ->
     length (List.filter Nat.even (seq a k)) = (k / 2)%nat /\
     length (List.filter Nat.odd (seq a k)) = ((k + 1) / 2)%nat).
Proof.
  revert a. induction k as [|k IH]; intros a; [now split|].
  pose proof (Nat.div_mod_eq k 2). pose proof (Nat.mod_upper_bound k 2 ltac:(lia)).
  pose proof (Nat.div_mod_eq (k + 1) 2). pose proof (Nat.mod_upper_bound (k + 1) 2 ltac:(lia)).
  pose proof (Nat.div_mod_eq (S k + 1) 2).
  pose proof (Nat.mod_upper_bound (S k + 1) 2 ltac:(lia)).
  pose proof (Nat.div_mod_eq (S k) 2). pose proof (Nat.mod_upper_bound (S k) 2 ltac:(lia)).
  destruct (IH (S a)) as [He Ho]. cbn [seq List.filter].
  rewrite <- (Nat.negb_even a), Nat.even_succ, <- (Nat.negb_even a) in *.
  destruct (Nat.even a); cbn [negb] in *; split; intros E; try discriminate;
    cbn [length].
  - destruct (Ho eq_refl) as [-> ->]. lia.
  - destruct (He eq_refl) as [-> ->]. lia.
Qed.

Lemma parity_count_bounds a k :
  (k / 2 <= length (List.filter Nat.even (seq a k)) <= (k + 1) / 2)%nat /\
  (k / 2 <= length (List.filter Nat.odd (seq a k)) <= (k + 1) / 2)%nat.
Proof.
  pose proof (Nat.div_mod_eq k 2). pose proof (Nat.mod_upper_bound k 2 ltac:(lia)).
  pose proof (Nat.div_mod_eq (k + 1) 2). pose proof (Nat.mod_upper_bound (k + 1) 2 ltac:(lia)).
  destruct (parity_count a k) as [He Ho].
  destruct (Nat.even a); [destruct (He eq_refl) as [-> ->]|destruct (Ho eq_refl) as [-> ->]];
    lia.
Qed.

Lemma NoDup_List_filter {A} (f : A -> bool) (l : list A) :
  NoDup l -> NoDup (List.filter f l).
Proof. rewrite !NoDup_ListNoDup. apply List.NoDup_filter. Qed.

Lemma flat_map_filter_incl {A B} (f : A -> list B) (g : A -> bool) (l : list A) b :
  In b (flat_map f (List.filter g l)) -> In b (flat_map f l).
Proof.
  rewrite !in_flat_map. intros (a & Ha & Hb). apply filter_In in Ha as [Ha _]. eauto.
Qed.

Lemma NoDup_flat_map_filter {A B} (f : A -> list B) (g : A -> bool) (l : list A) :
  NoDup (flat_map f l) -> NoDup (flat_map f (List.filter g l)).
Proof.
  induction l as [|a l IH]; [trivial|]. cbn [flat_map List.filter].
  intros (Ha & Hdisj & Hl)%NoDup_app. destruct (g a); [|now apply IH].
  cbn [flat_map]. apply NoDup_app. split; [exact Ha|]. split; [|now apply IH].
  intros b Hb Hb'. apply (Hdisj b Hb).
  apply list_elem_of_In. apply list_elem_of_In in Hb'. now apply flat_map_filter_incl in Hb'.
Qed.

Lemma grouped_NoDup positions (l : list value) :
  NoDup (flat_map (pos_indices_of positions) (py_set l)).
Proof.
  induction l as [|v l IH]; [constructor|]. cbn [py_set flat_map].
  apply NoDup_app. split; [apply NoDup_List_filter, NoDup_seq|].
  split; [|now apply NoDup_flat_map_filter].
  intros i Hv Hrest. apply list_elem_of_In in Hv, Hrest.
  apply filter_In in Hv as [_ Hv].
  apply in_flat_map in Hrest as (w & Hw & Hi).
  apply filter_In in Hw as [_ Hw]. apply filter_In in Hi as [_ Hi].
  apply negb_true_iff in Hw. unfold py_same in Hw. apply orb_false_elim in Hw as [_ Hw].
  rewrite py_eq_sym in Hv. rewrite (py_eq_trans _ _ _ Hv Hi) in Hw. discriminate.
Qed.

Lemma balanced_order_NoDup positions : NoDup (balanced_order positions).
Proof.
  unfold balanced_order. apply NoDup_app.
  split; [apply grouped_NoDup|]. split; [|apply NoDup_List_filter, NoDup_seq].
  intros i Hi Hrest. apply list_elem_of_In, filter_In in Hrest as [_ Hrest].
  apply negb_true_iff, bool_decide_eq_false in Hrest. contradiction.
Qed.

Lemma balanced_order_elem positions p :
  p ∈ balanced_order positions <-> (p < length positions)%nat.
Proof.
  unfold balanced_order. rewrite elem_of_app. split.
  - intros [Hp|Hp]; apply list_elem_of_In in Hp.
    + apply in_flat_map in Hp as (u & _ & Hp). apply filter_In in Hp as [Hp _].
      apply in_seq in Hp. lia.
    + apply filter_In in Hp as [Hp _]. apply in_seq in Hp. lia.
  - intros Hp.
    destruct (decide (p ∈ flat_map (pos_indices_of positions) (py_set positions)))
      as [Hin|Hin]; [now left|right].
    apply list_elem_of_In, filter_In. split; [apply in_seq; lia|].
    now apply negb_true_iff, bool_decide_eq_false_2.
Qed.

Lemma balanced_order_Permutation positions :
  Permutation (balanced_order positions) (seq 0 (length positions)).
Proof.
  apply NoDup_Permutation; [apply balanced_order_NoDup|apply NoDup_seq|].
  intros p. rewrite balanced_order_elem, elem_of_seq. lia.
Qed.

Lemma balanced_order_block positions u :
  In u (py_set positions) ->
  exists l1 l3, balanced_order positions = l1 ++ pos_indices_of positions u ++ l3.
Proof.
  intros Hu. apply in_split in Hu as (us1 & us2 & Hu).
  unfold balanced_order. rewrite Hu, flat_map_app. cbn [flat_map].
  exists (flat_map (pos_indices_of positions) us1).
  eexists. rewrite <- app_assoc. f_equal. rewrite <- app_assoc. reflexivity.
Qed.

(** The players of a block of [balanced_order] that are in a team. *)
Lemma block_team_count positions (even_team : bool) (l1 l2 l3 : list nat) :
  balanced_order positions = l1 ++ l2 ++ l3 ->
  (length l2 / 2
   <= length (List.filter (fun p => if even_team then in_team_0 positions p
                                     else negb (in_team_0 positions p)) l2)
   <= (length l2 + 1) / 2)%nat.
Proof.
  intros Hblock. pose proof (balanced_order_NoDup positions) as Hnd.
  unfold in_team_0. rewrite Hblock in Hnd |- *.
  pose proof (map_index_of_block _ _ _ Hnd) as Hidx.
  destruct (parity_count_bounds (length l1) (length l2)) as [He Ho].
  rewrite <- Hidx, !filter_map_length in He, Ho.
  destruct even_team; [exact He|].
  erewrite filter_ext; [exact Ho|]. intros p. cbv beta. now rewrite Nat.negb_even.
Qed.

Lemma filter_length_Permutation {A} (f : A -> bool) (l l' : list A) :
  Permutation l l' -> length (List.filter f l) = length (List.filter f l').
Proof.
  induction 1 as [|a l l' _ IH|a b l|l l' l'' _ IH1 _ IH2]; simpl.
  - reflexivity.
  - destruct (f a); simpl; now rewrite IH.
  - destruct (f a), (f b); reflexivity.
  - now rewrite IH1.
Qed.

Lemma balanced_split_bool positions skills p t :
  balanced_split positions skills (x_var p t) = 0%Z \/
  balanced_split positions skills (x_var p t) = 1%Z.
Proof.
  cbn. destruct t as [|[|t]]; [| |now left]; destruct (in_team_0 positions p); auto.
Qed.

Lemma balanced_split_picks positions skills t (idx : list nat) :
  (t < num_teams)%nat ->
  List.filter (picks (balanced_split positions skills) t) idx
  = List.filter (fun p => if (t =? 0)%nat then in_team_0 positions p
                          else negb (in_team_0 positions p)) idx.
Proof.
  unfold num_teams. intros Ht. apply filter_ext. intros p. unfold picks. cbn.
  destruct t as [|[|t]]; [| |lia]; cbn; now destruct (in_team_0 positions p).
Qed.

Lemma balanced_split_team_size positions skills t (idx : list nat) :
  (t < num_teams)%nat ->
  eval (balanced_split positions skills) (team_size idx t)
  = Z.of_nat (length (List.filter
       (fun p => if (t =? 0)%nat then in_team_0 positions p
                 else negb (in_team_0 positions p)) idx)).
Proof.
  intros Ht. unfold team_size. rewrite eval_sum_expr, map_map, count_picks.
  - now rewrite balanced_split_picks.
  - intros p _. apply balanced_split_bool.
Qed.

Lemma balanced_split_size positions skills t :
  (t < num_teams)%nat ->
  (Z.of_nat (length positions / num_teams)
   <= eval (balanced_split positions skills) (team_size (seq 0 (length positions)) t)
   <= Z.of_nat (length positions / num_teams) + 1)%Z.
Proof.
  intros Ht. rewrite balanced_split_team_size by exact Ht.
  rewrite <- (filter_length_Permutation _ _ _ (balanced_order_Permutation positions)).
  pose proof (block_team_count positions (t =? 0)%nat [] (balanced_order positions) [])
    as Hb.
  rewrite app_nil_r in Hb. specialize (Hb eq_refl).
  rewrite (Permutation_length (balanced_order_Permutation positions)), length_seq in Hb.
  unfold num_teams.
  pose proof (Nat.div_mod_eq (length positions) 2).
  pose proof (Nat.mod_upper_bound (length positions) 2 ltac:(lia)).
  pose proof (Nat.div_mod_eq (length positions + 1) 2).
  pose proof (Nat.mod_upper_bound (length positions + 1) 2 ltac:(lia)).
  lia.
Qed.

Lemma balanced_split_position positions skills u t :
  In u (py_set positions) -> (t < num_teams)%nat ->
  (Z.of_nat (length (pos_indices_of positions u) / num_teams)
   <= eval (balanced_split positions skills) (team_size (pos_indices_of positions u) t)
   <= math_ceil_div (length (pos_indices_of positions u)) num_teams)%Z.
Proof.
  intros Hu Ht. rewrite balanced_split_team_size by exact Ht.
  destruct (balanced_order_block _ _ Hu) as (l1 & l3 & Hblock).
  pose proof (block_team_count positions (t =? 0)%nat _ _ _ Hblock) as Hb.
  unfold num_teams. rewrite math_ceil_div_two. lia.
Qed.

Lemma balanced_split_satisfies players positions skills m :
  build_model players = Ok m ->
  mapM_result (getitem "position") players = Ok positions ->
  mapM_result skill_score players = Ok skills ->
  (Zsum (map Z.abs skills) <= 100000)%Z ->
  check_model m (balanced_split positions skills) = true.
Proof.
  intros Hm Hpos Hsk Hsum.
  destruct (build_model_inv _ _ Hm) as (positions' & skills' & Hpos' & Hsk' & Hv & Hcs).
  rewrite Hpos in Hpos'. rewrite Hsk in Hsk'.
  apply Ok_inj in Hpos'. apply Ok_inj in Hsk'. subst positions' skills'.
  pose proof (mapM_result_length _ _ _ Hpos) as Hlen.
  pose proof (mapM_result_length _ _ _ Hsk) as Hlens.
  assert (Hgap : (0 <= balanced_split positions skills diff_var <= 100000)%Z).
  { cbn. split; [apply Z.abs_nonneg|]. unfold team_score.
    rewrite !eval_sum_expr, !map_map. cbn [eval].
    etransitivity; [apply (score_gap_bound (fun p => skills !!! p))|].
    - intros p t. apply (balanced_split_bool positions skills).
    - rewrite <- (map_map (fun p => skills !!! p) Z.abs).
      rewrite Hlen, <- Hlens, map_lookup_total_seq. exact Hsum. }
  unfold check_model. rewrite Hv, Hcs, !forallb_app, !andb_true_iff.
  repeat split.
  - apply forallb_forall. intros d Hd.
    apply in_flat_map in Hd as (p & _ & Hd). apply in_flat_map in Hd as (t & _ & Hd).
    destruct Hd as [<-|[]]. cbn [in_domain].
    destruct (balanced_split_bool positions skills p t) as [-> | ->]; reflexivity.
  - cbn [forallb in_domain]. rewrite andb_true_r, andb_true_iff, !Z.leb_le. exact Hgap.
  - apply forallb_forall. intros c Hc. apply in_flat_map in Hc as (p & _ & Hc).
    destruct Hc as [<-|[]]. cbn. destruct (in_team_0 positions p); reflexivity.
  - apply forallb_forall. intros c Hc. apply in_flat_map in Hc as (t & Ht & Hc).
    apply in_seq in Ht.
    pose proof (balanced_split_size positions skills t ltac:(lia)) as Hb.
    rewrite Hlen in Hb. unfold size_constraints in Hc.
    destruct Hc as [<-|[<-|[]]]; cbn [holds]; apply Z.leb_le; lia.
  - apply forallb_forall. intros c Hc. apply in_flat_map in Hc as (u & Hu & Hc).
    unfold position_constraints in Hc. apply in_flat_map in Hc as (t & Ht & Hc).
    apply in_seq in Ht.
    pose proof (balanced_split_position positions skills u t Hu ltac:(lia)) as Hb.
    destruct Hc as [<-|[<-|[]]]; cbn [holds]; apply Z.leb_le; lia.
  - cbn [forallb holds]. rewrite andb_true_r. apply Z.eqb_eq.
    cbn [balanced_split eval]. unfold team_score.
    rewrite !eval_sum_expr, !map_map, Hlen. reflexivity.
Qed.

(** X18: the model of a cohort has a solution as soon as the absolute
    values of the skill scores sum to at most 100000: the players can
    always be put in two teams that meet the size and the position
    constraints, so no position with a single player, and no cohort of a
    single player, makes the model infeasible. *)
Theorem build_model_feasible players skills m :
  build_model players = Ok m ->
  mapM_result skill_score players = Ok skills ->
  (Zsum (map Z.abs skills) <= 100000)%Z ->
  exists V, check_model m V = true.
Proof.
  intros Hm Hsk Hsum.
  destruct (build_model_inv _ _ Hm) as (positions & skills' & Hpos & _ & _ & _).
  exists (balanced_split positions skills).
  now apply (balanced_split_satisfies players).
Qed.

Lemma build_model_feasible_witness :
  build_model demo_cohort = Ok demo_model /\
  mapM_result skill_score demo_cohort = Ok [30; 20; 25]%Z /\
  (Zsum (map Z.abs [30; 20; 25]) <= 100000)%Z /\
  exists V, check_model demo_model V = true.
Proof.
  split; [reflexivity|]. split; [reflexivity|]. split; [simpl; lia|].
  apply (build_model_feasible demo_cohort [30; 20; 25]%Z demo_model).
  - reflexivity.
  - reflexivity.
  - simpl. lia.
Defined.
